(** * youtube-to-blogpost: the transcript fetch pipeline of [fetch_transcripts.py]

    A shallow embedding of the URL validator, the title sanitizer, the
    subtitle availability test, the caption normalizer and the per-URL driver,
    together with the properties the specification states about them. *)

From Stdlib Require Import NArith Ascii String List Bool Arith Lia.
From stdpp Require Import base option list gmap.
From Stdlib Require DecimalString.

Local Open Scope N_scope.

(** ** Python strings

    A Python [str] is a sequence of Unicode code points; a code point is a
    natural number.  [lit] reads an ASCII literal of the source. *)

Definition char := N.
Definition str := list char.

Definition chr (a : ascii) : char := N_of_ascii a.
Definition lit (x : string) : str := List.map chr (list_ascii_of_string x).
Arguments chr a%_char : simpl never.
Arguments lit x%_string.

(** [str.isspace] on one code point: the white space of the Unicode database,
    which is what [str.strip()] removes and what [\s] matches in a [str]
    pattern. *)
Definition isspace (x : char) : bool :=
  ((0x09 <=? x) && (x <=? 0x0D)) || ((0x1C <=? x) && (x <=? 0x20))
  || (x =? 0x85) || (x =? 0xA0) || (x =? 0x1680)
  || ((0x2000 <=? x) && (x <=? 0x200A))
  || (x =? 0x2028) || (x =? 0x2029) || (x =? 0x202F) || (x =? 0x205F)
  || (x =? 0x3000).

Definition newline : char := chr "010".

Definition in_range (lo hi : ascii) (x : char) : bool :=
  (chr lo <=? x) && (x <=? chr hi).

(** ASCII letters and digits: the ranges [a-zA-Z0-9] of a character class. *)
Definition ascii_alnum (x : char) : bool :=
  in_range "a" "z" x || in_range "A" "Z" x || in_range "0" "9" x.

(** [s.lstrip()], [s.rstrip()], [s.strip()] with no argument. *)
Fixpoint lstrip (t : str) : str :=
  match t with
  | [] => []
  | x :: t' => if isspace x then lstrip t' else t
  end.

Definition rstrip (t : str) : str := rev (lstrip (rev t)).

Definition strip (t : str) : str := rstrip (lstrip t).

(** [s.replace(old, new)] where [old] and [new] are one character long. *)
Definition replace (old new : char) (t : str) : str :=
  List.map (fun x => if x =? old then new else x) t.

(** [sep.join(parts)]. *)
Fixpoint join (sep : str) (parts : list str) : str :=
  match parts with
  | [] => []
  | [p] => p
  | p :: rest => p ++ sep ++ join sep rest
  end.

(** Truth value of a string: the empty string is false. *)
Definition nonempty (t : str) : bool :=
  match t with [] => false | _ :: _ => true end.

(** ** Regular expressions of the [re] module

    The patterns of the source are kept as syntax and run by a backtracking
    matcher that lists, in the order [re] tries them, the remainders of the
    subject after each way the pattern can match at its start. *)

Inductive regex : Type :=
| Emp                           (* the empty pattern *)
| Lit (x : char)                (* one literal character *)
| Cls (p : char -> bool)        (* a class [...] or a category such as \w *)
| Cat (r1 r2 : regex)           (* r1 r2 *)
| Alt (r1 r2 : regex)           (* r1|r2 *)
| Opt (r : regex)               (* r? *)
| Star (r : regex)              (* r* *)
| Plus (r : regex)              (* r+ *)
| Count (n : nat) (r : regex)   (* r{n} *)
| Bol                           (* ^ *)
| Eol.                          (* $ *)

Infix "@@" := Cat (at level 60, right associativity).

(** A run of literal characters. *)
Fixpoint word (w : str) : regex :=
  match w with
  | [] => Emp
  | x :: w' => Lit x @@ word w'
  end.

Section Matcher.

(** The whole subject string, which [^] needs to recognise its start. *)
Variable subject : str.

(** Greedy iteration of [step]; an iteration that consumes nothing is not
    repeated.  The remaining length bounds the number of iterations. *)
Fixpoint iterate (step : str -> list str) (fuel : nat) (t : str) : list str :=
  match fuel with
  | O => [t]
  | S fuel' =>
      flat_map (iterate step fuel')
        (List.filter (fun u => (length u <? length t)%nat) (step t)) ++ [t]
  end.

Fixpoint times (step : str -> list str) (n : nat) (t : str) : list str :=
  match n with
  | O => [t]
  | S n' => flat_map (times step n') (step t)
  end.

Fixpoint run (r : regex) (t : str) : list str :=
  match r with
  | Emp => [t]
  | Lit x => match t with
             | y :: t' => if y =? x then [t'] else []
             | [] => []
             end
  | Cls p => match t with
             | y :: t' => if p y then [t'] else []
             | [] => []
             end
  | Cat r1 r2 => flat_map (run r2) (run r1 t)
  | Alt r1 r2 => run r1 t ++ run r2 t
  | Opt r1 => run r1 t ++ [t]
  | Star r1 => iterate (run r1) (length t) t
  | Plus r1 => flat_map (fun u => iterate (run r1) (length u) u) (run r1 t)
  | Count n r1 => times (run r1) n t
  | Bol => if (length t =? length subject)%nat then [t] else []
  | Eol => match t with
           | [] => [t]
           | [y] => if y =? newline then [t] else []
           | _ => []
           end
  end.

End Matcher.

(** [pattern.match(t)]: the remainder after the first match at the start of
    [t], if there is one. *)
Definition re_match (r : regex) (t : str) : option str :=
  head (run t r t).

(** [re.sub(pattern, repl, t)]: scan from the left; a match is replaced and
    the scan resumes after it, otherwise one character is copied. *)
Fixpoint sub_from (subject : str) (r : regex) (repl : str) (fuel : nat) (t : str) : str :=
  match fuel with
  | O => t
  | S fuel' =>
      let copy := match t with
                  | [] => []
                  | x :: t' => x :: sub_from subject r repl fuel' t'
                  end in
      match head (run subject r t) with
      | Some rest =>
          if (length rest <? length t)%nat
          then repl ++ sub_from subject r repl fuel' rest
          else repl ++ copy
      | None => copy
      end
  end.

Definition re_sub (r : regex) (repl : str) (t : str) : str :=
  sub_from t r repl (S (length t)) t.

(** [re.search(pattern, t)] as a truth value: some substring of [t] matches. *)
Fixpoint search_from (subject : str) (r : regex) (t : str) : bool :=
  match run subject r t with
  | _ :: _ => true
  | [] => match t with
          | [] => false
          | _ :: t' => search_from subject r t'
          end
  end.

Definition re_search (r : regex) (t : str) : bool := search_from t r t.

(** ** The world outside the program

    Files and directories, the trace of what the program asked of the
    network, the file system and the logger, and the exceptions of Python. *)

Inductive level : Type := DEBUG | INFO | WARNING | ERROR.

(** The exceptions below [Exception] that the source distinguishes; [msg] is
    what formatting the exception prints. *)
Inductive exn : Type :=
| DownloadError (msg : str)
| Exception (msg : str).

Definition message (e : exn) : str :=
  match e with DownloadError m => m | Exception m => m end.

Inductive result (A : Type) : Type :=
| Val (a : A)
| Raise (e : exn).
Arguments Val {A} a.
Arguments Raise {A} e.

Inductive node : Type :=
| File (content : str)
| Dir.

(** One cue of a [webvtt] caption file. *)
Record caption : Type := Caption {
  start : str;
  end_ : str;
  text : str
}.

(** The options passed to [YoutubeDL]; a key left out of the dictionary is
    [None]. *)
Record ydl_options : Type := YdlOptions {
  skip_download : bool;
  writesubtitles : option bool;
  writeautomaticsub : option bool;
  subtitleslangs : option (list str);
  subtitlesformat : option str;
  outtmpl : option str;
  quiet : bool;
  no_warnings : bool
}.

(** The values of the two caption mappings are never inspected. *)
Definition tracks := list (str * str).

(** The dictionary [extract_info] returns, with the three keys the program
    reads; an absent key is [None]. *)
Record video_info : Type := VideoInfo {
  title : option str;
  subtitles : option (gmap str tracks);
  automatic_captions : option (gmap str tracks)
}.

Inductive event : Type :=
| Log (lvl : level) (msg : str)
| ExtractInfo (opts : ydl_options) (url : str) (download : bool)
| MakeDirs (path : str)
| Remove (path : str)
| WriteFile (path : str) (content : str).

Record world : Type := World {
  files : gmap str node;
  trace : list event
}.

(** The collaborators of the program: the video platform client, the caption
    file parser, the operating system, and the Unicode database. *)
Record Env : Type := {
  (** [str.isalnum] on a code point above ASCII. *)
  unicode_alnum : char -> bool;
  (** [YoutubeDL(opts).extract_info(url, download=False)] *)
  ydl_metadata : ydl_options -> str -> result video_info;
  (** [YoutubeDL(opts).extract_info(url, download=True)], which may create
      files *)
  ydl_download : ydl_options -> str -> gmap str node -> result unit * gmap str node;
  (** [webvtt.read] on the content of a file *)
  webvtt_parse : str -> result (list caption);
  (** the error, if any, with which the operating system refuses a
      [MakeDirs], [Remove] or [WriteFile] *)
  os_error : event -> option str;
  (** where a refused [WriteFile] of a content to a path stopped: [None] when
      [open] itself failed, so that the file was not touched; [Some n] when
      the file had been opened, hence truncated, and [n] characters of the
      content had reached it when writing or closing it failed *)
  os_written : str -> str -> option nat
}.

(** Computations that read and change the world and may raise. *)
Definition M (A : Type) : Type := world -> result A * world.

Definition ret {A} (a : A) : M A := fun w => (Val a, w).

Definition bind {A B} (m : M A) (f : A -> M B) : M B :=
  fun w => match m w with
           | (Val a, w') => f a w'
           | (Raise e, w') => (Raise e, w')
           end.

(** [try: m except Exception as e: ...], with the outcome handed to the
    continuation. *)
Definition attempt {A} (m : M A) : M (result A) :=
  fun w => let (r, w') := m w in (Val r, w').

Definition raise {A} (e : exn) : M A := fun w => (Raise e, w).

Notation "x <- m ;; k" := (bind m (fun x => k))
  (at level 100, m at next level, right associativity).
Notation "m ;;; k" := (bind m (fun _ => k))
  (at level 100, right associativity).

Definition emit (ev : event) : M unit :=
  fun w => (Val tt, World (files w) (trace w ++ [ev])).

Definition log (lvl : level) (msg : str) : M unit := emit (Log lvl msg).

(** [os.path.exists(path)] *)
Definition os_path_exists (path : str) : M bool :=
  fun w => (Val (bool_decide (is_Some (files w !! path))), w).

(** [os.path.join(a, b)] on POSIX. *)
Definition os_path_join (a b : str) : str :=
  match b with
  | x :: _ => if x =? chr "/" then b
              else match last a with
                   | Some y => if y =? chr "/" then a ++ b else a ++ chr "/" :: b
                   | None => b
                   end
  | [] => match last a with
          | Some y => if y =? chr "/" then a else a ++ [chr "/"]
          | None => []
          end
  end.

(** The prefixes of [path] that end before a separator, then [path] itself:
    the directories [os.makedirs] creates. *)
Fixpoint ancestors (seen : str) (path : str) : list str :=
  match path with
  | [] => [seen]
  | x :: path' =>
      (if (x =? chr "/") && nonempty seen then [seen] else [])
        ++ ancestors (seen ++ [x]) path'
  end.

Section Program.

Variable E : Env.

(** *** Calls into the operating system and the libraries *)

Definition refused (ev : event) : M unit :=
  match os_error E ev with
  | Some m => raise (Exception m)
  | None => ret tt
  end.

(** [os.makedirs(path)] *)
Definition os_makedirs (path : str) : M unit :=
  emit (MakeDirs path);;;
  refused (MakeDirs path);;;
  fun w =>
    match files w !! path with
    | Some _ => (Raise (Exception (lit "File exists")), w)
    | None =>
        (Val tt,
         World (foldr (fun d fs => match fs !! d with
                                   | Some _ => fs
                                   | None => <[d := Dir]> fs
                                   end) (files w) (ancestors [] path))
               (trace w))
    end.

(** [os.remove(path)] *)
Definition os_remove (path : str) : M unit :=
  emit (Remove path);;;
  refused (Remove path);;;
  fun w =>
    match files w !! path with
    | Some (File _) => (Val tt, World (delete path (files w)) (trace w))
    | Some Dir => (Raise (Exception (lit "Is a directory")), w)
    | None => (Raise (Exception (lit "No such file or directory")), w)
    end.

(** [with open(path, 'w', encoding='utf-8') as f: f.write(content)]:
    [open] fails on a directory, and where the operating system refuses it,
    before anything changes; once it has succeeded the file is empty, and a
    failure of [f.write] or of closing the file leaves in it the part of the
    content written so far. *)
Definition write_file (path content : str) : M unit :=
  emit (WriteFile path content);;;
  fun w =>
    match os_error E (WriteFile path content) with
    | Some m =>
        match files w !! path, os_written E path content with
        | Some Dir, _ | _, None => (Raise (Exception m), w)
        | _, Some n =>
            (Raise (Exception m),
             World (<[path := File (take n content)]> (files w)) (trace w))
        end
    | None =>
        match files w !! path with
        | Some Dir => (Raise (Exception (lit "Is a directory")), w)
        | _ => (Val tt, World (<[path := File content]> (files w)) (trace w))
        end
    end.

(** [webvtt.read(path)] *)
Definition webvtt_read (path : str) : M (list caption) :=
  fun w =>
    match files w !! path with
    | Some (File content) => (webvtt_parse E content, w)
    | Some Dir => (Raise (Exception (lit "Is a directory")), w)
    | None => (Raise (Exception (lit "No such file or directory")), w)
    end.

(** [ydl.extract_info(url, download=False)] *)
Definition extract_info (opts : ydl_options) (url : str) : M video_info :=
  emit (ExtractInfo opts url false);;;
  fun w => (ydl_metadata E opts url, w).

(** [ydl.extract_info(url, download=True)] *)
Definition extract_info_download (opts : ydl_options) (url : str) : M unit :=
  emit (ExtractInfo opts url true);;;
  fun w => let (r, fs) := ydl_download E opts url (files w) in
           (r, World fs (trace w)).

(** [if not os.path.exists(path): os.makedirs(path); logger.debug(note)] *)
Definition ensure_directory (path note : str) : M unit :=
  there <- os_path_exists path;;
  if negb there then
    os_makedirs path;;;
    log DEBUG note
  else ret tt.

(** *** Configuration constants *)

Definition SUBTITLES_DIR : str := lit "temp_subtitles".
Definition OUTPUT_DIR : str := lit "data/transcripts".

(** *** [is_valid_youtube_url] *)

(** [\w] in a [str] pattern: alphanumeric in the Unicode database, or the
    underscore. *)
Definition word_char (x : char) : bool :=
  (if x <? 128 then ascii_alnum x else unicode_alnum E x) || (x =? chr "_").

(** The pattern of the source, here with its parts spaced out:
    [^ (https?://)? (www\.)? (youtube\.com/watch\?v=|youtu\.be/) [\w-]{11} (&\S* )? $] *)
Definition youtube_regex : regex :=
  Bol @@ Opt (word (lit "http") @@ Opt (Lit (chr "s")) @@ word (lit "://"))
      @@ Opt (word (lit "www."))
      @@ Alt (word (lit "youtube.com/watch?v=")) (word (lit "youtu.be/"))
      @@ Count 11 (Cls (fun x => word_char x || (x =? chr "-")))
      @@ Opt (Lit (chr "&") @@ Star (Cls (fun x => negb (isspace x))))
      @@ Eol.

Definition is_valid_youtube_url (url : str) : bool :=
  bool_decide (is_Some (re_match youtube_regex url)).

(** *** [sanitize_filename] *)

(** The class of the nine characters backslash, slash, star, question
    mark, colon, double quote, angle brackets and bar. *)
Definition invalid_in_filename (x : char) : bool :=
  existsb (N.eqb x)
    [chr "\"; chr "/"; chr "*"; chr "?"; chr ":"; chr "034"; chr "<"; chr ">"; chr "|"].

Definition sanitize_filename (title : str) : str :=
  let filename := replace (chr " ") (chr "-") title in
  let filename := re_sub (Cls invalid_in_filename) [] filename in
  filename.

(** *** [convert_subtitles_to_text] *)

(** The pattern [<[^>]+>]. *)
Definition tag_regex : regex :=
  Lit (chr "<") @@ Plus (Cls (fun x => negb (x =? chr ">"))) @@ Lit (chr ">").

(** [for idx, x in enumerate(xs): acc = body acc idx x], counting from
    [idx]. *)
Fixpoint for_enumerate {A B : Type} (body : B -> nat -> A -> B)
    (idx : nat) (xs : list A) (acc : B) : B :=
  match xs with
  | [] => acc
  | x :: xs' => for_enumerate body (S idx) xs' (body acc idx x)
  end.

(** The text of one caption with tags and surrounding white space removed:
    [re.sub(r'<[^>]+>', '', caption.text).strip()]. *)
Definition clean (caption_text : str) : str :=
  strip (re_sub tag_regex [] caption_text).

(** The list [transcript] when the loop over the captions ends. *)
Definition transcript_of (captions : list caption) : list str :=
  for_enumerate
    (fun transcript idx caption =>
       let clean_text := clean (text caption) in
       if nonempty clean_text && (idx mod 2 =? 0)%nat
       then transcript ++ [clean_text]
       else transcript)
    0%nat captions [].

Definition convert_subtitles_to_text (subtitle_path : str) : M str :=
  read <- attempt (webvtt_read subtitle_path);;
  match read with
  | Raise e =>
      log ERROR (lit "Error reading subtitle file '" ++ subtitle_path
                   ++ lit "': " ++ message e);;;
      ret []
  | Val captions =>
      let transcript := transcript_of captions in
      ret (join [newline] transcript)
  end.


(** *** [fetch_transcript] *)

(** The title under which the captions are stored: lines 143 to 146,
    [info.get('title', 'video').strip().replace(' ', '-')], then
    [re.sub(r'[^a-zA-Z0-9\-]', '', video_title)], then
    [video_title[:max_length]]. *)
Definition video_title_of (info : video_info) : str :=
  let video_title :=
    replace (chr " ") (chr "-") (strip (default (lit "video") (title info))) in
  let video_title :=
    re_sub (Cls (fun x => negb (ascii_alnum x || (x =? chr "-")))) [] video_title in
  let max_length := 50%nat in
  let video_title := take max_length video_title in
  video_title.

(** What step 2 settles when it does not return. *)
Record selection : Type := Selection {
  subtitle_type : str;
  download_subtitles : bool;
  write_automaticsub : bool
}.

(** Step 2, determine subtitle availability; [None] is the branch that
    logs a warning and returns. *)
Definition subtitle_availability
    (subtitles automatic_captions : gmap str tracks) (language : str)
    : option selection :=
  if bool_decide (is_Some (subtitles !! language)) then
    Some (Selection (lit "user-provided") true false)
  else if bool_decide (is_Some (automatic_captions !! language)) then
    Some (Selection (lit "auto-generated") true true)
  else None.

(** The options of step 1. *)
Definition initial_ydl_opts : ydl_options :=
  YdlOptions true None None None None None true true.

(** The options of step 3. *)
Definition ydl_opts (sel : selection) (language video_title : str) : ydl_options :=
  YdlOptions true
    (Some (download_subtitles sel))
    (Some (write_automaticsub sel))
    (Some [language])
    (Some (lit "vtt"))
    (Some (os_path_join SUBTITLES_DIR
             (sanitize_filename video_title ++ lit ".%(ext)s")))
    true true.

(** The names of step 5. *)
Definition subtitle_filename (video_title language : str) : str :=
  video_title ++ lit "." ++ language ++ lit ".vtt".

Definition subtitle_path (video_title language : str) : str :=
  os_path_join SUBTITLES_DIR (subtitle_filename video_title language).

Definition fetch_transcript (url language : str) : M (option (str * str)) :=
  (* Step 1: extract video information without downloading subtitles *)
  extracted <- attempt (extract_info initial_ydl_opts url);;
  match extracted with
  | Raise (DownloadError de) =>
      log ERROR (lit "Failed to extract video info: " ++ de);;;
      ret None
  | Raise (Exception e) =>
      log ERROR (lit "An unexpected error occurred during info extraction: " ++ e);;;
      ret None
  | Val info =>
      let video_title := video_title_of info in
      let subtitles := default ∅ (subtitles info) in
      let automatic_captions := default ∅ (automatic_captions info) in
      (* Step 2: determine subtitle availability *)
      match subtitle_availability subtitles automatic_captions language with
      | None =>
          log WARNING (lit "No '" ++ language ++ lit "' subtitles available for '"
                         ++ video_title ++ lit "'.");;;
          ret None
      | Some sel =>
          (* Step 3: configure the options based on subtitle type *)
          let ydl_opts := ydl_opts sel language video_title in
          ensure_directory SUBTITLES_DIR
            (lit "Created subtitles directory '" ++ SUBTITLES_DIR ++ lit "'.");;;
          (* Step 4: download the appropriate subtitles *)
          downloaded <- attempt (extract_info_download ydl_opts url);;
          match downloaded with
          | Raise (DownloadError de) =>
              log ERROR (lit "Failed to download " ++ subtitle_type sel
                           ++ lit " subtitles: " ++ de);;;
              ret None
          | Raise (Exception e) =>
              log ERROR (lit "An unexpected error occurred during subtitle download: "
                           ++ e);;;
              ret None
          | Val _ =>
              (* Step 5: construct the expected subtitle file path *)
              let subtitle_filename := subtitle_filename video_title language in
              let subtitle_path := subtitle_path video_title language in
              found <- os_path_exists subtitle_path;;
              if negb found then
                log WARNING (lit "Subtitle file '" ++ subtitle_filename
                               ++ lit "' not found.");;;
                ret None
              else
                (* Step 6: read and convert the subtitle file *)
                transcript_text <- convert_subtitles_to_text subtitle_path;;
                (* Step 7: clean up the subtitle file *)
                removed <- attempt (os_remove subtitle_path);;
                match removed with
                | Val _ =>
                    log DEBUG (lit "Removed temporary subtitle file '"
                                 ++ subtitle_filename ++ lit "'.")
                | Raise e =>
                    log WARNING (lit "Could not remove subtitle file '"
                                   ++ subtitle_filename ++ lit "': " ++ message e)
                end;;;
                log INFO (lit "Fetched " ++ subtitle_type sel ++ lit " transcript for '"
                            ++ video_title ++ lit "'.");;;
                ret (Some (transcript_text, video_title))
          end
      end
  end.

(** *** [save_transcript] *)

Definition save_transcript (transcript video_title : str) : M unit :=
  saved <- attempt (
    ensure_directory OUTPUT_DIR
      (lit "Created output directory '" ++ OUTPUT_DIR ++ lit "'.");;;
    let filename := take 50 (sanitize_filename video_title) in
    let output_path := os_path_join OUTPUT_DIR (filename ++ lit ".txt") in
    write_file output_path transcript;;;
    log INFO (lit "Transcript saved to '" ++ output_path ++ lit "'."));;
  match saved with
  | Val _ => ret tt
  | Raise e =>
      log ERROR (lit "Failed to save transcript for '" ++ video_title
                   ++ lit "': " ++ message e)
  end.

(** *** [process_url] *)

Definition process_url (url language : str) : M (option str) :=
  log INFO (lit "Processing URL: " ++ url);;;
  if negb (is_valid_youtube_url url) then
    log ERROR (lit "Invalid YouTube URL: " ++ url);;;
    ret None
  else
    result <- fetch_transcript url language;;
    match result with
    | Some (transcript, video_title) =>
        if nonempty transcript then
          save_transcript transcript video_title;;;
          ret (Some video_title)
        else
          ret None
    | None =>
        log WARNING (lit "Could not retrieve transcript for '" ++ url ++ lit "'.");;;
        ret None
    end.

End Program.

(** ** The statements of the specification

    Definitions that follow the words of the specification, to be compared
    with the program above. *)

(** The three outcomes of the subtitle availability resolver, read off the
    download flags step 2 settles. *)
Inductive resolution : Type := UseUserProvided | UseAutoGenerated | Unavailable.

Definition resolver (subtitles automatic_captions : gmap str tracks)
    (language : str) : resolution :=
  match subtitle_availability subtitles automatic_captions language with
  | Some sel => if write_automaticsub sel then UseAutoGenerated else UseUserProvided
  | None => Unavailable
  end.

(** The normalizer as the specification words it: number the cleaned cue
    texts, keep those at an even position whose text is not empty. *)
Definition kept_cues (cues : list caption) : list str :=
  List.map snd
    (List.filter (fun it : nat * str => Nat.even (fst it) && nonempty (snd it))
       (imap (fun i cue => (i, clean (text cue))) cues)).

(** The same numbering started at [idx], for the loop met part way. *)
Definition kept_from (idx : nat) (cues : list caption) : list str :=
  List.map snd
    (List.filter (fun it : nat * str => Nat.even (fst it) && nonempty (snd it))
       (imap (fun i cue => (idx + i, clean (text cue))%nat) cues)).

(** The file system events of a trace that write a file. *)
Definition writes (tr : list event) : list event :=
  List.filter (fun ev => match ev with WriteFile _ _ => true | _ => false end) tr.

(** The network events of a trace. *)
Definition network_calls (tr : list event) : list event :=
  List.filter (fun ev => match ev with ExtractInfo _ _ _ => true | _ => false end) tr.

(** The world when step 1 of [fetch_transcript] has received the metadata, and
    the same when [fetch_transcript] is called by [process_url]. *)
Definition after_extract (url : str) (w : world) : world :=
  World (files w) (trace w ++ [ExtractInfo initial_ydl_opts url false]).

Definition after_metadata (url : str) (w : world) : world :=
  after_extract url
    (World (files w) (trace w ++ [Log INFO (lit "Processing URL: " ++ url)])).

Definition subtitles_dir_note : str :=
  lit "Created subtitles directory '" ++ SUBTITLES_DIR ++ lit "'.".

(** [t.split(sep)] for a separator of one character. *)
Fixpoint split (sep : char) (t : str) : list str :=
  match t with
  | [] => [[]]
  | x :: t' =>
      if x =? sep then [] :: split sep t'
      else match split sep t' with
           | piece :: pieces => (x :: piece) :: pieces
           | [] => [[x]]
           end
  end.

(** Each run of white space collapsed to one separator, as the specification
    words the title derivation. *)
Fixpoint collapse_whitespace (sep : char) (t : str) : str :=
  match t with
  | [] => []
  | x :: t' =>
      if isspace x then
        match t' with
        | y :: _ => if isspace y then collapse_whitespace sep t'
                    else sep :: collapse_whitespace sep t'
        | [] => [sep]
        end
      else x :: collapse_whitespace sep t'
  end.

Definition title_char (x : char) : bool := ascii_alnum x || (x =? chr "-").

Definition collapsed_title (raw : str) : str :=
  take 50 (List.filter title_char (collapse_whitespace (chr "-") raw)).

(** What the title derivation does to one character of the trimmed title. *)
Definition title_image (x : char) : str :=
  if x =? chr " " then [chr "-"] else if title_char x then [x] else [].

(** The shape of an accepted URL, with the condition on what follows the
    ampersand left open. *)
Definition url_shape (E : Env) (after_amp : str -> Prop) (url : str) : Prop :=
  exists scheme www host ident suffix : str,
    url = scheme ++ www ++ host ++ ident ++ suffix
    /\ (scheme = [] \/ scheme = lit "http://" \/ scheme = lit "https://")
    /\ (www = [] \/ www = lit "www.")
    /\ (host = lit "youtube.com/watch?v=" \/ host = lit "youtu.be/")
    /\ length ident = 11%nat
    /\ Forall (fun x => word_char E x = true \/ x = chr "-") ident
    /\ (suffix = [] \/ exists rest, suffix = chr "&" :: rest /\ after_amp rest).

(** The shape as the specification states it: any suffix that begins with an
    ampersand. *)
Definition stated_url_shape (E : Env) : str -> Prop := url_shape E (fun _ => True).

(** The shape the pattern accepts: no white space after the ampersand. *)
Definition accepted_url_shape (E : Env) : str -> Prop :=
  url_shape E (Forall (fun x => isspace x = false)).

(** The remainder of [t] after its first [>]. *)
Fixpoint after_gt (t : str) : option str :=
  match t with
  | [] => None
  | x :: t' => if x =? chr ">" then Some t' else after_gt t'
  end.

(** The remainder of [t] after a tag at its start: an opening bracket, a
    character other than the closing bracket, and on to the first closing
    bracket. *)
Definition tag_rest (t : str) : option str :=
  match t with
  | x :: y :: t' =>
      if (x =? chr "<") && negb (y =? chr ">") then after_gt t' else None
  | _ => None
  end.

(** No tag starts anywhere in [t]. *)
Fixpoint tag_free (t : str) : Prop :=
  tag_rest t = None /\ match t with [] => True | _ :: t' => tag_free t' end.

(** A substring of [t] is a tag: an opening bracket, one or more characters
    other than the closing bracket, a closing bracket. *)
Definition has_tag (t : str) : Prop :=
  exists pre body rest,
    t = pre ++ chr "<" :: body ++ chr ">" :: rest
    /\ body <> [] /\ Forall (fun x => x <> chr ">") body.

(** An environment for examples: a video titled [My Video!] with user
    provided English captions, whose download leaves a caption file of four
    cues. *)
Definition cue (t : str) : caption := Caption (lit "00:00.000") (lit "00:01.000") t.

Definition demo : Env := {|
  unicode_alnum := fun _ => false;
  ydl_metadata := fun _ _ =>
    Val (VideoInfo (Some (lit "My Video!")) (Some {[ lit "en" := [] ]}) (Some ∅));
  ydl_download := fun _ _ fs =>
    (Val tt, <[ lit "temp_subtitles/My-Video.en.vtt" := File (lit "WEBVTT") ]> fs);
  webvtt_parse := fun _ =>
    Val [cue (lit "Hello"); cue (lit "Hello"); cue (lit "World"); cue (lit "World")];
  os_error := fun _ => None;
  os_written := fun _ _ => None
|}.

(** The same video when the download leaves nothing behind. *)
Definition demo_no_file : Env := {|
  unicode_alnum := unicode_alnum demo;
  ydl_metadata := ydl_metadata demo;
  ydl_download := fun _ _ fs => (Val tt, fs);
  webvtt_parse := webvtt_parse demo;
  os_error := os_error demo;
  os_written := os_written demo
|}.

(** The same video when every cue of the caption file is blank or markup. *)
Definition demo_blank : Env := {|
  unicode_alnum := unicode_alnum demo;
  ydl_metadata := ydl_metadata demo;
  ydl_download := ydl_download demo;
  webvtt_parse := fun _ => Val [cue (lit "<c> </c>"); cue (lit "dropped"); cue (lit "  ")];
  os_error := os_error demo;
  os_written := os_written demo
|}.

(** The same video when the cues hold inequalities rather than markup. *)
Definition demo_inequalities : Env := {|
  unicode_alnum := unicode_alnum demo;
  ydl_metadata := ydl_metadata demo;
  ydl_download := ydl_download demo;
  webvtt_parse := fun _ => Val [cue (lit "a <"); cue (lit "a <"); cue (lit "b > c")];
  os_error := os_error demo;
  os_written := os_written demo
|}.

(** The same video when the caption file holds one cue of two lines. *)
Definition two_line_cues : list caption := [cue (lit "a" ++ newline :: lit "b")].

Definition demo_two_lines : Env := {|
  unicode_alnum := unicode_alnum demo;
  ydl_metadata := ydl_metadata demo;
  ydl_download := ydl_download demo;
  webvtt_parse := fun _ => Val two_line_cues;
  os_error := os_error demo;
  os_written := os_written demo
|}.

(** A world in which the caption file of the demo video has been downloaded. *)
Definition demo_path : str := lit "temp_subtitles/My-Video.en.vtt".
Definition demo_world : world :=
  World (<[ demo_path := File (lit "WEBVTT") ]> (<[ lit "temp_subtitles" := Dir ]> ∅)) [].
Definition demo_cues : list caption :=
  [cue (lit "Hello"); cue (lit "Hello"); cue (lit "World"); cue (lit "World")].

Definition demo_info : video_info :=
  VideoInfo (Some (lit "My Video!")) (Some {[ lit "en" := [] ]}) (Some ∅).
Definition demo_selection : selection := Selection (lit "user-provided") true false.

Definition empty_world : world := World ∅ [].
Definition demo_url : str := lit "https://www.youtube.com/watch?v=dQw4w9WgXcQ".

(** The world of the demo request when the download is about to start: the
    metadata are in and the directory for the captions has been created. *)
Definition demo_ready : world :=
  snd (ensure_directory demo SUBTITLES_DIR subtitles_dir_note
         (after_metadata demo_url empty_world)).

(** ** The rest of [fetch_transcripts.py] and its callers *)

Definition carriage_return : char := chr "013".

(** Reading in text mode: a carriage return, with the newline that may follow
    it, is read as one newline. *)
Fixpoint universal_newlines (t : str) : str :=
  match t with
  | [] => []
  | x :: t' =>
      if x =? carriage_return then
        newline :: match t' with
                   | y :: t'' => if y =? newline then universal_newlines t''
                                 else universal_newlines t'
                   | [] => []
                   end
      else x :: universal_newlines t'
  end.

(** [for line in f]: the lines of a text, each with the newline that ends
    it. *)
Fixpoint file_lines (t : str) : list str :=
  match t with
  | [] => []
  | x :: t' =>
      if x =? newline then [x] :: file_lines t'
      else match file_lines t' with
           | line :: lines => (x :: line) :: lines
           | [] => [[x]]
           end
  end.

(** [str(n)] for a length. *)
Definition decimal (n : nat) : str := lit (DecimalString.NilEmpty.string_of_uint (Nat.to_uint n)).

(** [read_urls_from_file]; the three branches are the end of the [try]
    block, [except FileNotFoundError] and [except Exception]. *)
Definition read_urls_from_file (file_path : str) : M (list str) :=
  fun w =>
    match files w !! file_path with
    | Some (File content) =>
        let urls :=
          fold_left
            (fun urls line =>
               let url := strip line in
               if nonempty url then urls ++ [url] else urls)
            (file_lines (universal_newlines content)) [] in
        (log INFO (lit "Read " ++ decimal (length urls) ++ lit " URL(s) from '"
                     ++ file_path ++ lit "'.");;;
         ret urls) w
    | None =>
        (log ERROR (lit "Input file '" ++ file_path ++ lit "' not found.");;;
         ret []) w
    | Some Dir =>
        (log ERROR (lit "Error reading '" ++ file_path ++ lit "': "
                      ++ lit "Is a directory");;;
         ret []) w
    end.

(** The loop of [main]: [for url in urls: process_url(url, language)]. *)
Fixpoint process_urls (E : Env) (urls : list str) (language : str) : M unit :=
  match urls with
  | [] => ret tt
  | url :: rest => process_url E url language;;; process_urls E rest language
  end.

(** An f-string field holding a value that may be [None]. *)
Definition format_optional (value : option str) : str :=
  match value with
  | Some t => t
  | None => lit "None"
  end.

Module cmd_driver.

(** [fetch_transcript] of [cmd_driver.py]; the lines it prints are returned
    beside the world. *)
Definition fetch_transcript (E : Env) (url : str) (w : world)
    : result str * world * list str :=
  let printed := [lit "Fetching transcript for: " ++ url] in
  match process_url E url (lit "en") w with
  | (Val video_title, w') =>
      let transcript_path :=
        os_path_join (lit "data/transcripts")
          (format_optional video_title ++ lit ".txt") in
      (Val transcript_path, w',
       printed ++ [lit "transcript_path : " ++ transcript_path])
  | (Raise e, w') => (Raise e, w', printed)
  end.

End cmd_driver.

Module streamlit_app.

(** What the page shows: [st.info], [st.success], [st.error]. *)
Inductive notice : Type :=
| info (msg : str)
| success (msg : str)
| error (msg : str).

(** [fetch_transcript_ui]: the new value of [st.session_state.transcript_text],
    the notices shown, and the world. *)
Definition fetch_transcript_ui (E : Env) (url : str) (transcript_text : option str)
    (w : world) : option str * list notice * world :=
  let shown := [info (lit "Fetching transcript for: " ++ url)] in
  match fetch_transcript E url (lit "en") w with
  | (Val (Some (transcript, video_title)), w') =>
      (Some transcript,
       shown ++ [success (lit "Transcript fetched successfully!")], w')
  | (Val None, w') =>
      (transcript_text, shown ++ [error (lit "Failed to fetch transcript.")], w')
  | (Raise e, w') =>
      (transcript_text,
       shown ++ [error (lit "Error fetching transcript: " ++ message e)], w')
  end.

End streamlit_app.

(** [t.startswith(prefix)] *)
Fixpoint startswith (prefix t : str) : bool :=
  match prefix, t with
  | [], _ => true
  | p :: prefix', x :: t' => (x =? p) && startswith prefix' t'
  | _ :: _, [] => false
  end.

(** [t.replace(old, new)] for strings of any length: the occurrences of [old]
    are found from the left and do not overlap; [skip] counts the characters
    of the occurrence just replaced that are still to be passed. *)
Fixpoint replace_scan (old new : str) (skip : nat) (t : str) : str :=
  match t with
  | [] => match old with [] => new | _ :: _ => [] end
  | x :: t' =>
      match skip with
      | S skip' => replace_scan old new skip' t'
      | O =>
          if startswith old t then
            match old with
            | [] => new ++ x :: replace_scan old new 0 t'
            | _ :: old' => new ++ replace_scan old new (length old') t'
            end
          else x :: replace_scan old new 0 t'
      end
  end.

Definition str_replace (old new t : str) : str := replace_scan old new 0 t.

(** The path of the blog post in [generate_blog] of [cmd_driver.py]:
    [transcript_path.replace("transcripts", "blogs").replace(".txt", ".md")]. *)
Definition blog_output_path (transcript_path : str) : str :=
  str_replace (lit ".txt") (lit ".md")
    (str_replace (lit "transcripts") (lit "blogs") transcript_path).

(** The prompt in [generate_blog_post] of [transcript_to_blog.py]:
    [self.config["system_prompt"].replace("{{transcript}}", transcript)]. *)
Definition blog_prompt (system_prompt transcript : str) : str :=
  str_replace (lit "{{transcript}}") transcript system_prompt.

(** What [fetch_transcript] may add to the trace after its request for the
    metadata: log records, a download request for the same URL, the creation of the
    directory for the captions, the removal of a caption file; never the
    writing of a file. *)
Definition fetch_event_ok (url language : str) (ev : event) : Prop :=
  match ev with
  | Log _ _ => True
  | ExtractInfo _ u download => u = url /\ download = true
  | MakeDirs p => p = SUBTITLES_DIR
  | Remove p => exists video_title, p = subtitle_path video_title language
  | WriteFile _ _ => False
  end.

(** The files after [os.makedirs] has created the directories [dirs] that
    were missing. *)
Definition add_dirs (dirs : list str) (fs : gmap str node) : gmap str node :=
  foldr (fun d fs => match fs !! d with
                     | Some _ => fs
                     | None => <[d := Dir]> fs
                     end) fs dirs.

(** What [save_transcript] may add to the trace: log records, the creation of
    the output directory, the writing of the transcript at its path. *)
Definition save_event_ok (transcript video_title : str) (ev : event) : Prop :=
  match ev with
  | Log _ _ => True
  | MakeDirs p => p = OUTPUT_DIR
  | WriteFile p c =>
      p = os_path_join OUTPUT_DIR (take 50 (sanitize_filename video_title) ++ lit ".txt")
      /\ c = transcript
  | ExtractInfo _ _ _ | Remove _ => False
  end.

(** The path under which [save_transcript] writes. *)
Definition output_path (video_title : str) : str :=
  os_path_join OUTPUT_DIR (take 50 (sanitize_filename video_title) ++ lit ".txt").

(** What [process_url] may add to the trace: log records, requests about its
    URL, which the validator has accepted, the creation of the two
    directories, the removal of a caption file, the writing of a transcript
    that is not empty at an output path. *)
Definition process_event_ok (E : Env) (url language : str) (ev : event) : Prop :=
  match ev with
  | Log _ _ => True
  | ExtractInfo _ u _ => u = url /\ is_valid_youtube_url E url = true
  | MakeDirs p => p = SUBTITLES_DIR \/ p = OUTPUT_DIR
  | Remove p => exists video_title, p = subtitle_path video_title language
  | WriteFile p c => c <> [] /\ exists video_title, p = output_path video_title
  end.

(** The same for a batch of URLs. *)
Definition batch_event_ok (E : Env) (urls : list str) (ev : event) : Prop :=
  match ev with
  | ExtractInfo _ u _ => In u urls /\ is_valid_youtube_url E u = true
  | WriteFile p c => c <> [] /\ exists video_title, p = output_path video_title
  | _ => True
  end.

(** The demo video when the platform cannot be reached. *)
Definition demo_offline : Env := {|
  unicode_alnum := unicode_alnum demo;
  ydl_metadata := fun _ _ => Raise (DownloadError (lit "Unable to download webpage"));
  ydl_download := ydl_download demo;
  webvtt_parse := webvtt_parse demo;
  os_error := os_error demo;
  os_written := os_written demo
|}.

(** The demo video when the operating system lets nothing be created. *)
Definition demo_readonly : Env := {|
  unicode_alnum := unicode_alnum demo;
  ydl_metadata := ydl_metadata demo;
  ydl_download := ydl_download demo;
  webvtt_parse := webvtt_parse demo;
  os_error := fun ev =>
    match ev with
    | MakeDirs _ | WriteFile _ _ => Some (lit "Permission denied")
    | _ => None
    end;
  os_written := os_written demo
|}.

(** The demo video when the disk fills up: a file can be opened, and writing
    to it fails after two characters. *)
Definition demo_disk_full : Env := {|
  unicode_alnum := unicode_alnum demo;
  ydl_metadata := ydl_metadata demo;
  ydl_download := ydl_download demo;
  webvtt_parse := webvtt_parse demo;
  os_error := fun ev =>
    match ev with
    | WriteFile _ _ => Some (lit "No space left on device")
    | _ => None
    end;
  os_written := fun _ _ => Some 2%nat
|}.

(** A world in which the transcript of the demo video has been saved before. *)
Definition demo_saved : world :=
  World (<[ lit "data/transcripts/My-Video.txt" := File (lit "an earlier transcript") ]>
           (<[ lit "data/transcripts" := Dir ]> (<[ lit "data" := Dir ]> ∅))) [].

(** ** Strings *)

Lemma lstrip_suffix t : exists pre, t = pre ++ lstrip t.
Proof.
  induction t as [|x t [pre IH]]; simpl.
  - exists []. reflexivity.
  - destruct (isspace x).
    + exists (x :: pre). simpl. congruence.
    + exists []. reflexivity.
Qed.

Lemma lstrip_head t x u : lstrip t = x :: u -> isspace x = false.
Proof.
  induction t as [|y t IH]; simpl; [discriminate|].
  destruct (isspace y) eqn:Hy; [assumption|].
  intros [= <- _]. exact Hy.
Qed.

Lemma lstrip_fixed x u : isspace x = false -> lstrip (x :: u) = x :: u.
Proof. intros H. simpl. rewrite H. reflexivity. Qed.

Lemma lstrip_idem t : lstrip (lstrip t) = lstrip t.
Proof.
  destruct (lstrip t) as [|x u] eqn:Ht; [reflexivity|].
  apply lstrip_fixed. eapply lstrip_head, Ht.
Qed.

Lemma lstrip_snoc t x : isspace x = false -> lstrip (t ++ [x]) = lstrip t ++ [x].
Proof.
  intros Hx. induction t as [|y t IH]; simpl.
  - rewrite Hx. reflexivity.
  - destruct (isspace y); [assumption | reflexivity].
Qed.

Lemma rstrip_cons x u : isspace x = false -> rstrip (x :: u) = x :: rstrip u.
Proof.
  intros Hx. unfold rstrip. simpl. rewrite lstrip_snoc by assumption.
  rewrite rev_app_distr. reflexivity.
Qed.

Lemma rstrip_prefix t : exists post, t = rstrip t ++ post.
Proof.
  unfold rstrip. destruct (lstrip_suffix (rev t)) as [pre H].
  exists (rev pre). rewrite <- rev_app_distr, <- H, rev_involutive. reflexivity.
Qed.

Lemma rstrip_idem t : rstrip (rstrip t) = rstrip t.
Proof. unfold rstrip. rewrite rev_involutive, lstrip_idem. reflexivity. Qed.

Lemma strip_idem t : strip (strip t) = strip t.
Proof.
  unfold strip. destruct (lstrip t) as [|x u] eqn:Ht; [reflexivity|].
  pose proof (lstrip_head _ _ _ Ht) as Hx.
  rewrite (rstrip_cons x u Hx), (lstrip_fixed x _ Hx), <- (rstrip_cons x u Hx).
  apply rstrip_idem.
Qed.

Lemma strip_infix t : exists pre post, t = pre ++ strip t ++ post.
Proof.
  unfold strip. destruct (lstrip_suffix t) as [pre H].
  destruct (rstrip_prefix (lstrip t)) as [post H'].
  exists pre, post. rewrite <- H'. exact H.
Qed.

Lemma join_cons sep p parts :
  parts <> [] -> join sep (p :: parts) = p ++ sep ++ join sep parts.
Proof. destruct parts; [congruence | reflexivity]. Qed.

Lemma join_snoc sep parts p :
  parts <> [] -> join sep (parts ++ [p]) = join sep parts ++ sep ++ p.
Proof.
  induction parts as [|q parts IH]; [congruence|]. intros _.
  destruct parts as [|q' parts].
  - reflexivity.
  - change ((q :: q' :: parts) ++ [p]) with (q :: ((q' :: parts) ++ [p])).
    rewrite (join_cons sep q ((q' :: parts) ++ [p])) by done.
    rewrite IH by done. rewrite (join_cons sep q (q' :: parts)) by done.
    rewrite <- !app_assoc. reflexivity.
Qed.

Lemma join_nil_iff sep parts :
  Forall (fun p => p <> []) parts -> (join sep parts = [] <-> parts = []).
Proof.
  intros H. split; [|intros ->; reflexivity].
  destruct parts as [|p parts]; [reflexivity|].
  inversion H as [|? ? Hp _]; subst.
  destruct p as [|x p]; [congruence|].
  destruct parts; simpl; discriminate.
Qed.

(** ** The matcher: which remainders a pattern leaves *)

Section RunFacts.

Variable subject : str.

Lemma in_run_lit x t u : In u (run subject (Lit x) t) <-> t = x :: u.
Proof.
  destruct t as [|y t]; simpl; [split; [tauto | discriminate]|].
  destruct (N.eqb_spec y x) as [->|Hne]; simpl.
  - split; [intros [->|[]]; reflexivity | intros [= ->]; left; reflexivity].
  - split; [tauto | intros [= -> _]; congruence].
Qed.

Lemma in_run_cls p t u :
  In u (run subject (Cls p) t) <-> exists y, t = y :: u /\ p y = true.
Proof.
  destruct t as [|y t]; simpl.
  - split; [tauto | intros (? & [=] & _)].
  - destruct (p y) eqn:Hy; simpl.
    + split.
      * intros [->|[]]. exists y. auto.
      * intros (z & [= -> ->] & _). left; reflexivity.
    + split; [tauto | intros (z & [= -> ->] & Hz); congruence].
Qed.

Lemma in_run_cat a b t u :
  In u (run subject (a @@ b) t)
  <-> exists m, In m (run subject a t) /\ In u (run subject b m).
Proof. simpl. apply in_flat_map. Qed.

Lemma in_run_alt a b t u :
  In u (run subject (Alt a b) t)
  <-> In u (run subject a t) \/ In u (run subject b t).
Proof. simpl. apply in_app_iff. Qed.

Lemma in_run_opt a t u :
  In u (run subject (Opt a) t) <-> In u (run subject a t) \/ u = t.
Proof.
  simpl. rewrite in_app_iff. simpl. intuition congruence.
Qed.

Lemma in_run_word w t u : In u (run subject (word w) t) <-> t = w ++ u.
Proof.
  revert t. induction w as [|x w IH]; intros t.
  - simpl. intuition congruence.
  - change (word (x :: w)) with (Lit x @@ word w). rewrite in_run_cat. split.
    + intros (m & Hm & Hu). apply in_run_lit in Hm. apply IH in Hu.
      subst. reflexivity.
    + intros ->. exists (w ++ u). split; [apply in_run_lit | apply IH]; reflexivity.
Qed.

Lemma in_times_cls p n t u :
  In u (times (run subject (Cls p)) n t)
  <-> exists pre, t = pre ++ u /\ length pre = n
                  /\ Forall (fun y => p y = true) pre.
Proof.
  revert t. induction n as [|n IH]; intros t; simpl.
  - split.
    + intros [->|[]]. exists []. auto.
    + intros (pre & -> & Hlen & _). destruct pre; [left; reflexivity | discriminate].
  - rewrite in_flat_map. split.
    + intros (m & Hm & Hu). apply in_run_cls in Hm as (y & -> & Hy).
      apply IH in Hu as (pre & -> & <- & Hpre).
      exists (y :: pre). auto.
    + intros (pre & -> & Hlen & Hpre). destruct pre as [|y pre]; [discriminate|].
      inversion Hpre; subst. exists (pre ++ u). split.
      * apply in_run_cls. exists y. auto.
      * apply IH. exists pre. injection Hlen as Hlen. auto.
Qed.

Lemma in_iterate_cls p fuel t u :
  (length t <= fuel)%nat ->
  In u (iterate (run subject (Cls p)) fuel t)
  <-> exists pre, t = pre ++ u /\ Forall (fun y => p y = true) pre.
Proof.
  revert t. induction fuel as [|fuel IH]; intros t Hfuel.
  - destruct t; [|simpl in Hfuel; lia]. simpl. split.
    + intros [<-|[]]. exists []. auto.
    + intros (pre & Ht & _). symmetry in Ht. apply app_eq_nil in Ht as [_ ->].
      left; reflexivity.
  - simpl. rewrite in_app_iff, in_flat_map. split.
    + intros [(m & Hm & Hu)|[<-|[]]].
      * apply filter_In in Hm as [Hm _]. apply in_run_cls in Hm as (y & -> & Hy).
        apply IH in Hu as (pre & -> & Hpre); [|simpl in Hfuel; lia].
        exists (y :: pre). auto.
      * exists []. auto.
    + intros (pre & -> & Hpre). destruct pre as [|y pre]; [right; left; reflexivity|].
      left. inversion Hpre; subst. exists (pre ++ u). split.
      * apply filter_In. split; [apply in_run_cls; exists y; auto|].
        apply Nat.ltb_lt. simpl. lia.
      * apply IH; [simpl in Hfuel; lia|]. exists pre. auto.
Qed.

Lemma in_run_star_cls p t u :
  In u (run subject (Star (Cls p)) t)
  <-> exists pre, t = pre ++ u /\ Forall (fun y => p y = true) pre.
Proof. apply in_iterate_cls. reflexivity. Qed.

Lemma in_run_eol t u :
  In u (run subject Eol t) <-> u = t /\ (t = [] \/ t = [newline]).
Proof.
  destruct t as [|y [|z t]]; simpl.
  - intuition congruence.
  - destruct (N.eqb_spec y newline) as [->|Hne]; simpl.
    + intuition congruence.
    + split; [tauto|]. intros [_ [[=]|[= ->]]]. congruence.
  - split; [tauto|]. intros [_ [[=]|[=]]].
Qed.

Lemma in_run_bol t u :
  In u (run subject Bol t) <-> u = t /\ length t = length subject.
Proof.
  simpl. destruct (Nat.eqb_spec (length t) (length subject)); simpl;
    intuition congruence.
Qed.

End RunFacts.

(** ** [is_valid_youtube_url]: what the pattern accepts *)

Section UrlPattern.

Variable E : Env.
Variable subject : str.

Lemma in_run_scheme h x w t u :
  In u (run subject (word h @@ Opt (Lit x) @@ word w) t)
  <-> t = h ++ w ++ u \/ t = h ++ x :: w ++ u.
Proof.
  rewrite in_run_cat. split.
  - intros (m & Hh & Hm). apply in_run_word in Hh as ->.
    apply in_run_cat in Hm as (m' & Hx & Hw). apply in_run_word in Hw as ->.
    apply in_run_opt in Hx as [Hx| ->]; [|left; reflexivity].
    apply in_run_lit in Hx as ->. right; reflexivity.
  - intros [->| ->].
    + exists (w ++ u). split; [apply in_run_word; reflexivity|].
      apply in_run_cat. exists (w ++ u).
      split; [apply in_run_opt; right | apply in_run_word]; reflexivity.
    + exists (x :: w ++ u). split; [apply in_run_word; reflexivity|].
      apply in_run_cat. exists (w ++ u).
      split; [apply in_run_opt; left; apply in_run_lit | apply in_run_word];
        reflexivity.
Qed.

Lemma in_run_amp p t u :
  In u (run subject (Opt (Lit (chr "&") @@ Star (Cls p))) t)
  <-> exists suffix, t = suffix ++ u
        /\ (suffix = [] \/ exists rest, suffix = chr "&" :: rest
                              /\ Forall (fun y => p y = true) rest).
Proof.
  rewrite in_run_opt, in_run_cat. split.
  - intros [(m & Ha & Hm)| ->]; [|exists []; auto].
    apply in_run_lit in Ha as ->.
    apply in_run_star_cls in Hm as (rest & -> & Hrest).
    exists (chr "&" :: rest). split; [reflexivity|]. right. exists rest. auto.
  - intros (suffix & -> & [->|(rest & -> & Hrest)]); [right; reflexivity|].
    left. exists (rest ++ u). split; [apply in_run_lit; reflexivity|].
    apply in_run_star_cls. exists rest. auto.
Qed.

Lemma ident_char_iff x :
  word_char E x || (x =? chr "-") = true <-> word_char E x = true \/ x = chr "-".
Proof. rewrite orb_true_iff, N.eqb_eq. reflexivity. Qed.

(** The remainders the URL pattern leaves: the subject is read from its
    start, and what is left is nothing or one final newline. *)
Lemma in_run_youtube_regex t u :
  In u (run subject (youtube_regex E) t)
  <-> length t = length subject
      /\ (u = [] \/ u = [newline])
      /\ exists body, t = body ++ u /\ accepted_url_shape E body.
Proof.
  unfold youtube_regex, accepted_url_shape, url_shape. split.
  - intros H.
    apply in_run_cat in H as (m & Hb & H). apply in_run_bol in Hb as [-> Hlen].
    apply in_run_cat in H as (m0 & Hs & H). apply in_run_opt in Hs.
    apply in_run_cat in H as (m1 & Hw & H). apply in_run_opt in Hw.
    apply in_run_cat in H as (m2 & Hh & H). apply in_run_alt in Hh.
    apply in_run_cat in H as (m3 & Hi & H).
    apply in_times_cls in Hi as (ident & -> & Hn & Hid).
    apply in_run_cat in H as (m4 & Hx & H).
    apply in_run_amp in Hx as (suffix & -> & Hx).
    apply in_run_eol in H as [-> He].
    assert (exists scheme, t = scheme ++ m0
              /\ (scheme = [] \/ scheme = lit "http://" \/ scheme = lit "https://"))
      as (scheme & -> & Hscheme).
    { destruct Hs as [Hs| ->]; [|exists []; auto].
      apply in_run_scheme in Hs as [->| ->].
      - exists (lit "http://"). auto.
      - exists (lit "https://"). auto. }
    assert (exists www, m0 = www ++ m1 /\ (www = [] \/ www = lit "www."))
      as (www & -> & Hwww).
    { destruct Hw as [Hw| ->]; [|exists []; auto].
      apply in_run_word in Hw as ->. exists (lit "www."). auto. }
    assert (exists host, m1 = host ++ ident ++ suffix ++ m4
              /\ (host = lit "youtube.com/watch?v=" \/ host = lit "youtu.be/"))
      as (host & -> & Hhost).
    { destruct Hh as [Hh|Hh]; apply in_run_word in Hh as ->; eauto. }
    split; [exact Hlen|]. split; [exact He|].
    exists (scheme ++ www ++ host ++ ident ++ suffix). split.
    { rewrite <- !app_assoc. reflexivity. }
    exists scheme, www, host, ident, suffix.
    repeat split; try assumption.
    + eapply Forall_impl; [exact Hid|]. intros x. apply ident_char_iff.
    + destruct Hx as [->|(rest & -> & Hrest)]; [left; reflexivity|].
      right. exists rest. split; [reflexivity|].
      eapply Forall_impl; [exact Hrest|]. intros x. apply negb_true_iff.
  - intros (Hlen & He & body & -> &
            scheme & www & host & ident & suffix & -> & Hs & Hw & Hh & Hn & Hid & Hx).
    rewrite <- !app_assoc.
    apply in_run_cat. eexists. split; [apply in_run_bol; split; [reflexivity|]|].
    { rewrite <- Hlen, <- !app_assoc. reflexivity. }
    apply in_run_cat. exists (www ++ host ++ ident ++ suffix ++ u). split.
    { apply in_run_opt. destruct Hs as [->|[->| ->]]; [right; reflexivity| |];
        left; apply in_run_scheme; [left | right]; reflexivity. }
    apply in_run_cat. exists (host ++ ident ++ suffix ++ u). split.
    { apply in_run_opt. destruct Hw as [->| ->]; [right; reflexivity|].
      left. apply in_run_word. reflexivity. }
    apply in_run_cat. exists (ident ++ suffix ++ u). split.
    { apply in_run_alt. destruct Hh as [->| ->]; [left | right];
        apply in_run_word; reflexivity. }
    apply in_run_cat. exists (suffix ++ u). split.
    { apply in_times_cls. exists ident. repeat split; [exact Hn|].
      eapply Forall_impl; [exact Hid|]. intros x. apply ident_char_iff. }
    apply in_run_cat. exists u. split.
    { apply in_run_amp. exists suffix. split; [reflexivity|].
      destruct Hx as [->|(rest & -> & Hrest)]; [left; reflexivity|].
      right. exists rest. split; [reflexivity|].
      eapply Forall_impl; [exact Hrest|]. intros x. apply negb_true_iff. }
    apply in_run_eol. auto.
Qed.

End UrlPattern.

Lemma is_Some_head {A} (l : list A) : is_Some (head l) <-> exists x, In x l.
Proof.
  destruct l as [|x l]; simpl.
  - split; [intros [? [=]] | intros [? []]].
  - split; [exists x; auto | eauto].
Qed.

(** The validator accepts exactly the strings of the accepted shape, possibly
    followed by one newline. *)
Lemma is_valid_youtube_url_iff E url :
  is_valid_youtube_url E url = true
  <-> exists body tail, url = body ++ tail /\ (tail = [] \/ tail = [newline])
                        /\ accepted_url_shape E body.
Proof.
  unfold is_valid_youtube_url, re_match.
  rewrite bool_decide_eq_true, is_Some_head.
  setoid_rewrite in_run_youtube_regex. split.
  - intros (u & _ & Hu & body & -> & Hb). exists body, u. auto.
  - intros (body & tail & -> & Ht & Hb). exists tail.
    split; [reflexivity|]. split; [exact Ht|]. exists body. auto.
Qed.

(** ** Claims about the URL validator *)

(** C10 as stated does not hold: a string of the stated shape whose suffix
    after the ampersand contains a space is rejected. *)
Lemma url_suffix_with_space_rejected :
  stated_url_shape demo (lit "youtu.be/abcdefghijk&a b")
  /\ is_valid_youtube_url demo (lit "youtu.be/abcdefghijk&a b") = false.
Proof.
  split; [|vm_compute; reflexivity].
  exists [], [], (lit "youtu.be/"), (lit "abcdefghijk"), (lit "&a b").
  repeat split; auto.
  - repeat constructor; left; vm_compute; reflexivity.
  - right. exists (lit "a b"). split; [reflexivity | exact I].
Qed.

(** C10, amended: on a string that does not end in a newline, the validator
    answers true exactly when the string is an optional [http://] or
    [https://], an optional [www.], then [youtube.com/watch?v=] or
    [youtu.be/], then 11 characters that are word characters or [-], then
    nothing or an ampersand followed by characters none of which is white
    space. *)
Theorem is_valid_youtube_url_shape E url :
  last url <> Some newline ->
  (is_valid_youtube_url E url = true <-> accepted_url_shape E url).
Proof.
  intros Hlast. rewrite is_valid_youtube_url_iff. split.
  - intros (body & tail & -> & [->| ->] & Hb).
    + rewrite app_nil_r. exact Hb.
    + exfalso. apply Hlast. apply last_snoc.
  - intros Hb. exists url, []. rewrite app_nil_r. auto.
Qed.

Lemma is_valid_youtube_url_shape_witness :
  is_valid_youtube_url demo demo_url = true <-> accepted_url_shape demo demo_url.
Proof.
  apply (is_valid_youtube_url_shape demo demo_url). vm_compute. discriminate.
Defined.

(** Identifiers of the wrong length and a parameter introduced by a question
    mark are rejected, whatever the Unicode database says. *)
Example short_identifier_rejected E :
  is_valid_youtube_url E (lit "https://www.youtube.com/watch?v=dQw4w9WgXc") = false.
Proof. vm_compute. reflexivity. Qed.

Example long_identifier_rejected E :
  is_valid_youtube_url E (lit "https://www.youtube.com/watch?v=dQw4w9WgXcQQ") = false.
Proof. vm_compute. reflexivity. Qed.

Example question_mark_parameter_rejected E :
  is_valid_youtube_url E (lit "https://www.youtube.com/watch?v=dQw4w9WgXcQ?t=10") = false.
Proof. vm_compute. reflexivity. Qed.

Example ampersand_parameter_accepted E :
  is_valid_youtube_url E (lit "https://www.youtube.com/watch?v=dQw4w9WgXcQ&t=10") = true.
Proof. vm_compute. reflexivity. Qed.

(** The pattern ends in [$], which also matches before a final newline. *)
Example final_newline_accepted E :
  is_valid_youtube_url E (lit "youtu.be/dQw4w9WgXcQ" ++ [newline]) = true.
Proof. vm_compute. reflexivity. Qed.

(** C5: a URL the validator rejects makes [process_url] return [None] after
    two log records and nothing else: the files are unchanged and the trace
    has no more network calls than before, so [extract_info] is called
    neither for the metadata nor for the download.  The string [not-a-url]
    is rejected. *)
Theorem process_url_invalid E url language w :
  is_valid_youtube_url E url = false ->
  process_url E url language w
  = (Val None,
     World (files w)
       (trace w ++ [Log INFO (lit "Processing URL: " ++ url)]
                ++ [Log ERROR (lit "Invalid YouTube URL: " ++ url)]))
  /\ network_calls (trace (snd (process_url E url language w)))
     = network_calls (trace w)
  /\ is_valid_youtube_url E (lit "not-a-url") = false.
Proof.
  intros H.
  assert (process_url E url language w
          = (Val None,
             World (files w)
               (trace w ++ [Log INFO (lit "Processing URL: " ++ url)]
                        ++ [Log ERROR (lit "Invalid YouTube URL: " ++ url)])))
    as Hrun.
  { unfold process_url, bind, log, emit, ret. rewrite H. simpl.
    rewrite <- app_assoc. reflexivity. }
  split; [exact Hrun|]. split; [|vm_compute; reflexivity].
  rewrite Hrun. cbn [snd trace]. unfold network_calls.
  rewrite List.filter_app. cbn [List.filter app]. apply app_nil_r.
Qed.

Lemma process_url_invalid_witness :
  process_url demo (lit "not-a-url") (lit "en") empty_world
  = (Val None,
     World ∅ [Log INFO (lit "Processing URL: not-a-url");
              Log ERROR (lit "Invalid YouTube URL: not-a-url")]).
Proof.
  apply (process_url_invalid demo (lit "not-a-url") (lit "en") empty_world).
  vm_compute. reflexivity.
Defined.

(** ** Claims about subtitle availability *)

(** C1: the resolver answers [UseUserProvided] when the language is a key of
    the user provided mapping, otherwise [UseAutoGenerated] when it is a key
    of the automatic mapping, otherwise [Unavailable]; a language present in
    both gives [UseUserProvided]. *)
Theorem resolver_policy (subtitles automatic_captions : gmap str tracks) language :
  resolver subtitles automatic_captions language
  = (if decide (language ∈ dom subtitles) then UseUserProvided
     else if decide (language ∈ dom automatic_captions) then UseAutoGenerated
     else Unavailable)
  /\ (language ∈ dom subtitles -> language ∈ dom automatic_captions ->
      resolver subtitles automatic_captions language = UseUserProvided).
Proof.
  assert (resolver subtitles automatic_captions language
          = (if decide (language ∈ dom subtitles) then UseUserProvided
             else if decide (language ∈ dom automatic_captions) then UseAutoGenerated
             else Unavailable)) as Heq.
  { unfold resolver, subtitle_availability.
    repeat case_bool_decide; repeat case_decide; simpl; try reflexivity;
      rewrite ?elem_of_dom in *; tauto. }
  split; [exact Heq|].
  intros Hs _. rewrite Heq. rewrite decide_True by assumption. reflexivity.
Qed.

Lemma resolver_policy_witness :
  resolver {[ lit "en" := [] ]} {[ lit "en" := [] ]} (lit "en") = UseUserProvided.
Proof.
  apply (resolver_policy {[ lit "en" := [] ]} {[ lit "en" := [] ]} (lit "en"));
    apply elem_of_dom; rewrite lookup_singleton_eq; eauto.
Defined.

Section TagPattern.
Variable subject : str.

Lemma run_close_after_body fuel t :
  (length t <= fuel)%nat ->
  flat_map (run subject (Lit (chr ">")))
    (iterate (run subject (Cls (fun x => negb (x =? chr ">")))) fuel t)
  = match after_gt t with Some r => [r] | None => [] end.
Proof.
  revert t. induction fuel as [|fuel IH]; intros t Hfuel.
  - destruct t; [reflexivity | simpl in Hfuel; lia].
  - destruct t as [|x t]; [reflexivity|].
    cbn [iterate run after_gt]. destruct (x =? chr ">") eqn:Hx; cbn [negb].
    + cbn [List.filter flat_map app run]. rewrite Hx. reflexivity.
    + cbn [List.filter]. 
      replace (length t <? length (x :: t))%nat with true
        by (symmetry; apply Nat.ltb_lt; simpl; lia).
      cbn [flat_map]. rewrite app_nil_r, flat_map_app, IH by (simpl in Hfuel; lia).
      cbn [run flat_map app]. rewrite Hx, app_nil_r. reflexivity.
Qed.

Lemma run_tag_regex t :
  run subject tag_regex t = match tag_rest t with Some r => [r] | None => [] end.
Proof.
  unfold tag_regex. destruct t as [|x t]; [reflexivity|].
  cbn [run tag_rest]. destruct (x =? chr "<"); [|destruct t; reflexivity].
  cbn [flat_map]. rewrite app_nil_r.
  destruct t as [|y t]; [reflexivity|].
  destruct (y =? chr ">") eqn:Hy; cbn [negb andb flat_map]; [reflexivity|].
  rewrite app_nil_r. apply run_close_after_body. reflexivity.
Qed.
End TagPattern.

Lemma after_gt_Some t r :
  after_gt t = Some r -> exists pre, t = pre ++ chr ">" :: r.
Proof.
  induction t as [|x t IH]; simpl; [discriminate|].
  destruct (N.eqb_spec x (chr ">")) as [->|_].
  - intros [= ->]. exists []. reflexivity.
  - intros H. destruct (IH H) as [pre ->]. exists (x :: pre). reflexivity.
Qed.

Lemma after_gt_None t :
  after_gt t = None <-> Forall (fun x => x <> chr ">") t.
Proof.
  induction t as [|x t IH]; simpl.
  - split; [constructor | reflexivity].
  - destruct (N.eqb_spec x (chr ">")) as [->|Hx].
    + split; [discriminate|]. intros H. inversion H; congruence.
    + rewrite IH. split; [constructor; assumption|]. intros H. inversion H; assumption.
Qed.

Lemma after_gt_app t r post :
  after_gt t = Some r -> after_gt (t ++ post) = Some (r ++ post).
Proof.
  induction t as [|x t IH]; simpl; [discriminate|].
  destruct (x =? chr ">"); [intros [= ->]; reflexivity | exact IH].
Qed.

Lemma tag_rest_Some t r :
  tag_rest t = Some r -> exists pre, t = pre ++ r /\ (length r < length t)%nat.
Proof.
  destruct t as [|x [|y t]]; simpl; try discriminate.
  destruct ((x =? chr "<") && negb (y =? chr ">")); [|discriminate].
  intros H. apply after_gt_Some in H as [pre ->].
  exists (x :: y :: pre ++ [chr ">"]). split.
  - simpl. rewrite <- app_assoc. reflexivity.
  - simpl. rewrite length_app. simpl. lia.
Qed.

Lemma tag_rest_app t r post :
  tag_rest t = Some r -> tag_rest (t ++ post) = Some (r ++ post).
Proof.
  destruct t as [|x [|y t]]; simpl; try discriminate.
  destruct ((x =? chr "<") && negb (y =? chr ">")); [|discriminate].
  apply after_gt_app.
Qed.

Lemma tag_rest_not_open x t : x <> chr "<" -> tag_rest (x :: t) = None.
Proof.
  intros Hx. destruct t as [|y t]; [reflexivity|]. simpl.
  destruct (N.eqb_spec x (chr "<")); [congruence | reflexivity].
Qed.

Lemma tag_rest_no_close x t :
  Forall (fun y => y <> chr ">") t -> tag_rest (x :: t) = None.
Proof.
  intros H. destruct t as [|y t]; [reflexivity|]. simpl.
  inversion H as [|? ? Hy Ht]; subst. apply after_gt_None in Ht. rewrite Ht.
  destruct ((x =? chr "<") && negb (y =? chr ">")); reflexivity.
Qed.

(** How a tag can fail to start at an opening bracket. *)
Lemma tag_rest_open_None t :
  tag_rest (chr "<" :: t) = None ->
  t = [] \/ (exists t', t = chr ">" :: t') \/ Forall (fun y => y <> chr ">") t.
Proof.
  destruct t as [|y t]; [auto|]. simpl.
  destruct (N.eqb_spec y (chr ">")) as [->|Hy]; simpl; [eauto|].
  intros H. apply after_gt_None in H. right; right. constructor; assumption.
Qed.

Lemma tag_free_suffix pre t : tag_free (pre ++ t) -> tag_free t.
Proof.
  induction pre as [|x pre IH]; [trivial|]. intros [_ H]. apply IH, H.
Qed.

Lemma tag_free_prefix t post : tag_free (t ++ post) -> tag_free t.
Proof.
  induction t as [|x t IH]; [intros _; split; [reflexivity | exact I]|].
  intros [Hhead Htail]. split; [|apply IH, Htail].
  destruct (tag_rest (x :: t)) as [r|] eqn:Hr; [|reflexivity].
  apply (tag_rest_app _ _ post) in Hr. simpl in Hhead, Hr. congruence.
Qed.

Section TagRemoval.

Variable subject : str.

Local Abbreviation remove_tags := (sub_from subject tag_regex []).

Lemma remove_tags_step fuel t :
  remove_tags (S fuel) t
  = match tag_rest t with
    | Some rest => remove_tags fuel rest
    | None => match t with
              | [] => []
              | x :: t' => x :: remove_tags fuel t'
              end
    end.
Proof.
  cbn [sub_from]. rewrite run_tag_regex.
  destruct (tag_rest t) as [rest|] eqn:Hr; [|reflexivity].
  cbn [head]. apply tag_rest_Some in Hr as (_ & _ & Hlen).
  apply Nat.ltb_lt in Hlen. rewrite Hlen. reflexivity.
Qed.

Lemma remove_tags_nil fuel : remove_tags fuel [] = [].
Proof. destruct fuel; [reflexivity|]. rewrite remove_tags_step. reflexivity. Qed.

Lemma remove_tags_Forall (P : char -> Prop) fuel t :
  (length t < fuel)%nat -> Forall P t -> Forall P (remove_tags fuel t).
Proof.
  revert t. induction fuel as [|fuel IH]; intros t Hfuel Ht; [lia|].
  rewrite remove_tags_step. destruct (tag_rest t) as [rest|] eqn:Hr.
  - apply tag_rest_Some in Hr as (pre & -> & Hlen).
    apply IH; [lia|]. apply Forall_app in Ht. tauto.
  - destruct t as [|x t]; [constructor|]. inversion Ht; subst.
    constructor; [assumption|]. apply IH; [simpl in Hfuel; lia | assumption].
Qed.

Lemma remove_tags_free fuel t :
  (length t < fuel)%nat -> tag_free (remove_tags fuel t).
Proof.
  revert t. induction fuel as [|fuel IH]; intros t Hfuel; [lia|].
  rewrite remove_tags_step. destruct (tag_rest t) as [rest|] eqn:Hr.
  - apply tag_rest_Some in Hr as (_ & _ & Hlen). apply IH. lia.
  - destruct t as [|x t]; [split; [reflexivity | exact I]|].
    simpl in Hfuel. split; [|apply IH; lia].
    destruct (N.eq_dec x (chr "<")) as [->|Hx]; [|apply tag_rest_not_open, Hx].
    apply tag_rest_open_None in Hr as [->|[[t' ->]|Hno]].
    + rewrite remove_tags_nil. reflexivity.
    + destruct fuel as [|fuel]; [simpl in Hfuel; lia|].
      rewrite remove_tags_step, (tag_rest_not_open (chr ">")) by discriminate. reflexivity.
    + apply tag_rest_no_close, remove_tags_Forall; [lia | exact Hno].
Qed.

Lemma remove_tags_fixed fuel t :
  (length t < fuel)%nat -> tag_free t -> remove_tags fuel t = t.
Proof.
  revert fuel. induction t as [|x t IH]; intros fuel Hfuel Ht.
  - apply remove_tags_nil.
  - destruct fuel as [|fuel]; [lia|]. destruct Ht as [Hhead Htail].
    rewrite remove_tags_step, Hhead. f_equal.
    apply IH; [simpl in Hfuel; lia | exact Htail].
Qed.

Lemma search_from_tag t : search_from subject tag_regex t = false <-> tag_free t.
Proof.
  induction t as [|x t IH]; cbn [search_from tag_free]; rewrite run_tag_regex.
  - simpl. intuition.
  - destruct (tag_rest (x :: t)) as [r|].
    + split; [discriminate | intros [[=] _]].
    + rewrite IH. tauto.
Qed.

End TagRemoval.

(** ** What the tag pattern finds, in words *)

Lemma after_gt_iff t r :
  after_gt t = Some r
  <-> exists body, t = body ++ chr ">" :: r /\ Forall (fun x => x <> chr ">") body.
Proof.
  split.
  - revert r. induction t as [|x t IH]; intros r; simpl; [discriminate|].
    destruct (N.eqb_spec x (chr ">")) as [->|Hx].
    + intros [= ->]. exists []. split; [reflexivity | constructor].
    + intros H. destruct (IH _ H) as (body & -> & Hbody).
      exists (x :: body). split; [reflexivity | constructor; assumption].
  - intros (body & -> & Hbody). induction Hbody as [|x body Hx _ IH]; simpl.
    + rewrite ?N.eqb_refl. reflexivity.
    + destruct (N.eqb_spec x (chr ">")); [congruence | exact IH].
Qed.

Lemma tag_rest_iff t r :
  tag_rest t = Some r
  <-> exists body, t = chr "<" :: body ++ chr ">" :: r
                   /\ body <> [] /\ Forall (fun x => x <> chr ">") body.
Proof.
  split.
  - destruct t as [|x [|y t]]; simpl; try discriminate.
    destruct (N.eqb_spec x (chr "<")) as [->|]; [|discriminate].
    destruct (N.eqb_spec y (chr ">")) as [|Hy]; [discriminate|]. simpl.
    intros H. apply after_gt_iff in H as (body & -> & Hbody).
    exists (y :: body). split; [reflexivity|]. split; [discriminate|].
    constructor; assumption.
  - intros (body & -> & Hne & Hbody). destruct body as [|y body]; [congruence|].
    inversion Hbody as [|? ? Hy Hrest]; subst. cbn [tag_rest app].
    rewrite ?N.eqb_refl. destruct (N.eqb_spec y (chr ">")); [congruence|].
    cbn [andb negb]. apply after_gt_iff. exists body. auto.
Qed.

Lemma tag_free_iff t : tag_free t <-> ~ has_tag t.
Proof.
  split.
  - intros Hfree (pre & body & rest & -> & Hne & Hbody).
    apply tag_free_suffix in Hfree as [Hhead _].
    assert (tag_rest (chr "<" :: body ++ chr ">" :: rest) = Some rest) as H
      by (apply tag_rest_iff; eauto).
    congruence.
  - induction t as [|x t IH]; intros Hno; [split; [reflexivity | exact I]|].
    split.
    + destruct (tag_rest (x :: t)) as [r|] eqn:Hr; [|reflexivity].
      exfalso. apply Hno. apply tag_rest_iff in Hr as (body & Ht & Hne & Hbody).
      exists [], body, r. auto.
    + apply IH. intros (pre & body & rest & -> & Hne & Hbody). apply Hno.
      exists (x :: pre), body, rest. auto.
Qed.

(** ** Cleaning one caption text *)

Lemma clean_tag_free t : tag_free (clean t).
Proof.
  unfold clean, re_sub.
  destruct (strip_infix (sub_from t tag_regex [] (S (length t)) t)) as (pre & post & H).
  pose proof (remove_tags_free t (S (length t)) t (Nat.lt_succ_diag_r _)) as Hfree.
  rewrite H in Hfree. apply tag_free_suffix, tag_free_prefix in Hfree. exact Hfree.
Qed.

Lemma re_sub_tag_fixed t : tag_free t -> re_sub tag_regex [] t = t.
Proof. intros H. apply remove_tags_fixed; [lia | exact H]. Qed.

Lemma re_search_tag t : re_search tag_regex t = false <-> tag_free t.
Proof. apply search_from_tag. Qed.

(** [re.search] with the tag pattern finds a match exactly in the strings
    that contain a tag. *)
Lemma re_search_has_tag t : re_search tag_regex t = true <-> has_tag t.
Proof.
  split.
  - unfold re_search. generalize t at 1. intros subject.
    induction t as [|x t IH]; cbn [search_from]; rewrite run_tag_regex.
    + simpl. discriminate.
    + destruct (tag_rest (x :: t)) as [r|] eqn:Hr.
      * intros _. apply tag_rest_iff in Hr as (body & Ht & Hne & Hbody).
        exists [], body, r. auto.
      * intros H. destruct (IH H) as (pre & body & rest & -> & Hne & Hbody).
        exists (x :: pre), body, rest. auto.
  - intros H. destruct (re_search tag_regex t) eqn:Hs; [reflexivity|].
    apply re_search_tag, tag_free_iff in Hs. contradiction.
Qed.

Lemma clean_idem t : clean (clean t) = clean t.
Proof.
  unfold clean at 1. rewrite re_sub_tag_fixed by apply clean_tag_free.
  unfold clean. apply strip_idem.
Qed.

(** ** The loop of the normalizer *)


Lemma even_mod2 n : (n mod 2 =? 0)%nat = Nat.even n.
Proof.
  destruct (Nat.even n) eqn:He.
  - apply Nat.even_spec in He as [k ->]. apply Nat.eqb_eq.
    rewrite Nat.mul_comm. apply Nat.Div0.mod_mul.
  - apply Nat.eqb_neq. intros Hm.
    assert (Nat.even n = true) as Hn; [|congruence].
    apply Nat.even_spec. exists (n / 2)%nat.
    pose proof (Nat.div_mod_eq n 2). lia.
Qed.

Lemma kept_from_cons idx c cues :
  kept_from idx (c :: cues)
  = (if nonempty (clean (text c)) && (idx mod 2 =? 0)%nat then [clean (text c)] else [])
      ++ kept_from (S idx) cues.
Proof.
  unfold kept_from. cbn [imap List.filter fst snd].
  rewrite Nat.add_0_r, even_mod2, andb_comm.
  erewrite (imap_ext _ (fun i cue => (S idx + i, clean (text cue))%nat)).
  - destruct (nonempty (clean (text c)) && Nat.even idx); reflexivity.
  - intros i x _. simpl. f_equal. lia.
Qed.

(** The loop appends the kept texts to what it has accumulated. *)
Lemma for_enumerate_kept idx cues acc :
  for_enumerate
    (fun transcript idx caption =>
       let clean_text := clean (text caption) in
       if nonempty clean_text && (idx mod 2 =? 0)%nat
       then transcript ++ [clean_text]
       else transcript)
    idx cues acc
  = acc ++ kept_from idx cues.
Proof.
  revert idx acc. induction cues as [|c cues IH]; intros idx acc.
  - simpl. rewrite app_nil_r. reflexivity.
  - cbn [for_enumerate]. rewrite IH, kept_from_cons. cbv zeta.
    destruct (nonempty (clean (text c)) && (idx mod 2 =? 0)%nat).
    + rewrite <- app_assoc. reflexivity.
    + reflexivity.
Qed.

Lemma transcript_of_kept cues : transcript_of cues = kept_cues cues.
Proof. unfold transcript_of. rewrite for_enumerate_kept. reflexivity. Qed.

Lemma kept_from_sublist idx cues :
  sublist (kept_from idx cues) (List.map (fun c => clean (text c)) cues).
Proof.
  revert idx. induction cues as [|c cues IH]; intros idx.
  - constructor.
  - rewrite kept_from_cons. cbn [List.map].
    destruct (nonempty (clean (text c)) && (idx mod 2 =? 0)%nat); cbn [app].
    + apply sublist_skip, IH.
    + apply sublist_cons, IH.
Qed.

Lemma kept_from_nonempty idx cues : Forall (fun p => p <> []) (kept_from idx cues).
Proof.
  revert idx. induction cues as [|c cues IH]; intros idx.
  - constructor.
  - rewrite kept_from_cons.
    destruct (nonempty (clean (text c))) eqn:Hc; cbn [andb app]; [|apply IH].
    destruct (idx mod 2 =? 0)%nat; cbn [app]; [|apply IH].
    constructor; [|apply IH]. destruct (clean (text c)); [discriminate | congruence].
Qed.

Lemma kept_from_tag_free idx cues : Forall tag_free (kept_from idx cues).
Proof.
  revert idx. induction cues as [|c cues IH]; intros idx.
  - constructor.
  - rewrite kept_from_cons.
    destruct (nonempty (clean (text c)) && (idx mod 2 =? 0)%nat); cbn [app];
      [|apply IH].
    constructor; [apply clean_tag_free | apply IH].
Qed.

(** ** Splitting into lines *)

Lemma split_nonempty sep t : split sep t <> [].
Proof.
  destruct t as [|x t]; simpl; [discriminate|].
  destruct (x =? sep); [discriminate|]. destruct (split sep t); discriminate.
Qed.

Lemma split_app sep a b : split sep (a ++ sep :: b) = split sep a ++ split sep b.
Proof.
  induction a as [|x a IH]; simpl.
  - rewrite N.eqb_refl. reflexivity.
  - destruct (x =? sep); [rewrite IH; reflexivity|].
    rewrite IH. pose proof (split_nonempty sep a).
    destruct (split sep a); [congruence | reflexivity].
Qed.

Lemma split_join sep parts :
  parts <> [] -> split sep (join [sep] parts) = concat (List.map (split sep) parts).
Proof.
  induction parts as [|p parts IH]; [congruence|]. intros _.
  destruct parts as [|q parts].
  - simpl. rewrite app_nil_r. reflexivity.
  - rewrite join_cons by done. cbn [app]. rewrite split_app, IH by done. reflexivity.
Qed.

Lemma sublist_concat_map {A B} (f : A -> list B) l1 l2 :
  sublist l1 l2 -> sublist (concat (List.map f l1)) (concat (List.map f l2)).
Proof.
  induction 1 as [|x l1 l2 _ IH|x l1 l2 _ IH]; simpl.
  - constructor.
  - apply sublist_app; [reflexivity | exact IH].
  - apply sublist_inserts_l, IH.
Qed.

(** ** Claims about the normalizer *)

Lemma webvtt_read_world E path w : snd (webvtt_read E path w) = w.
Proof.
  unfold webvtt_read. destruct (files w !! path) as [[content|]|]; reflexivity.
Qed.

(** [convert_subtitles_to_text] in one equation: the kept texts joined, or the
    empty string and one log record when reading fails. *)
Lemma convert_subtitles_to_text_eq E path w :
  convert_subtitles_to_text E path w
  = match fst (webvtt_read E path w) with
    | Val cues => (Val (join [newline] (kept_cues cues)), w)
    | Raise e =>
        (Val [],
         World (files w)
           (trace w ++ [Log ERROR (lit "Error reading subtitle file '" ++ path
                                     ++ lit "': " ++ message e)]))
    end.
Proof.
  unfold convert_subtitles_to_text, bind, attempt.
  pose proof (webvtt_read_world E path w) as Hw.
  destruct (webvtt_read E path w) as [[cues|e] w']; simpl in Hw |- *; subst w'.
  - rewrite transcript_of_kept. reflexivity.
  - reflexivity.
Qed.



(** C4 as stated does not hold: the joined output can contain a match of the
    tag pattern that runs from one kept cue into the next. *)
Lemma tag_across_cues :
  fst (convert_subtitles_to_text demo_inequalities demo_path demo_world)
  = Val (lit "a <" ++ newline :: lit "b > c")
  /\ re_search tag_regex (lit "a <" ++ newline :: lit "b > c") = true.
Proof. split; vm_compute; reflexivity. Qed.

(** C4, amended: cleaning a caption text (removing every match of the tag
    pattern, then trimming white space) is idempotent, a cleaned text contains
    no match of the tag pattern, and so the output of the normalizer is a
    newline join of pieces none of which contains a match of the tag
    pattern. *)
Theorem clean_idempotent t E path w :
  clean (clean t) = clean t
  /\ re_search tag_regex (clean t) = false
  /\ ~ has_tag (clean t)
  /\ exists pieces,
       fst (convert_subtitles_to_text E path w) = Val (join [newline] pieces)
       /\ Forall (fun piece => re_search tag_regex piece = false) pieces.
Proof.
  split; [apply clean_idem|]. split; [apply re_search_tag, clean_tag_free|].
  split; [apply tag_free_iff, clean_tag_free|].
  rewrite convert_subtitles_to_text_eq.
  destruct (fst (webvtt_read E path w)) as [cues|e].
  - exists (kept_cues cues). split; [reflexivity|].
    eapply Forall_impl; [apply (kept_from_tag_free 0)|].
    intros piece. apply re_search_tag.
  - exists []. split; [reflexivity | constructor].
Qed.

(** C8: the normalizer always returns a string, never an exception, and
    leaves the files alone; the string is empty when reading the caption file
    raises, and when it parses, the string is empty exactly when no cue is
    kept, as for an empty track. *)
Theorem convert_never_raises E path w :
  exists out w',
    convert_subtitles_to_text E path w = (Val out, w')
    /\ files w' = files w
    /\ (forall e, fst (webvtt_read E path w) = Raise e -> out = [])
    /\ (forall cues, fst (webvtt_read E path w) = Val cues ->
          (out = [] <-> kept_cues cues = []))
    /\ (fst (webvtt_read E path w) = Val [] -> out = []).
Proof.
  rewrite convert_subtitles_to_text_eq.
  destruct (fst (webvtt_read E path w)) as [cues|e].
  - exists (join [newline] (kept_cues cues)), w. split; [reflexivity|].
    split; [reflexivity|]. split; [discriminate|]. split.
    + intros ? [= <-]. apply join_nil_iff, (kept_from_nonempty 0).
    + intros [= ->]. reflexivity.
  - eexists _, _. split; [reflexivity|]. split; [reflexivity|].
    split; [reflexivity|]. split; discriminate.
Qed.

Lemma split_single sep t : Forall (fun x => x <> sep) t -> split sep t = [t].
Proof.
  induction 1 as [|x t Hx _ IH]; [reflexivity|]. cbn [split].
  apply N.eqb_neq in Hx. rewrite Hx, IH. reflexivity.
Qed.

Lemma concat_split_single sep parts :
  Forall (Forall (fun x => x <> sep)) parts ->
  concat (List.map (split sep) parts) = parts.
Proof.
  induction 1 as [|p parts Hp _ IH]; [reflexivity|].
  cbn [List.map concat]. rewrite (split_single sep p Hp), IH. reflexivity.
Qed.

Lemma sublist_Forall_l {A} (P : A -> Prop) l1 l2 :
  sublist l1 l2 -> Forall P l2 -> Forall P l1.
Proof.
  induction 1 as [|x l1 l2 _ IH|x l1 l2 _ IH]; intros Hall.
  - constructor.
  - inversion Hall; subst. constructor; auto.
  - inversion Hall; subst. auto.
Qed.

(** C9: when the caption file parses into [cues], the output is the newline
    join of a list of texts that is a subsequence of the cleaned cue texts,
    and the lines of a non-empty output are a subsequence of the lines of the
    cleaned cue texts; they are a subsequence of the cleaned cue texts
    themselves when no cleaned cue text holds a newline. *)
Theorem convert_preserves_order E path w cues :
  fst (webvtt_read E path w) = Val cues ->
  exists kept,
    sublist kept (List.map (fun c => clean (text c)) cues)
    /\ fst (convert_subtitles_to_text E path w) = Val (join [newline] kept)
    /\ (kept <> [] ->
        sublist (split newline (join [newline] kept))
          (concat (List.map (split newline)
                     (List.map (fun c => clean (text c)) cues))))
    /\ (kept <> [] ->
        Forall (Forall (fun x => x <> newline))
          (List.map (fun c => clean (text c)) cues) ->
        sublist (split newline (join [newline] kept))
          (List.map (fun c => clean (text c)) cues)).
Proof.
  intros Hread. exists (kept_cues cues). split; [apply (kept_from_sublist 0)|].
  split; [rewrite convert_subtitles_to_text_eq, Hread; reflexivity|].
  split.
  - intros Hne. rewrite split_join by exact Hne.
    apply sublist_concat_map, (kept_from_sublist 0).
  - intros Hne Hlines. rewrite split_join by exact Hne.
    rewrite concat_split_single; [apply (kept_from_sublist 0)|].
    apply (sublist_Forall_l _ _ _ (kept_from_sublist 0 cues) Hlines).
Qed.

Lemma convert_preserves_order_witness :
  exists kept,
    sublist kept (List.map (fun c => clean (text c)) demo_cues)
    /\ fst (convert_subtitles_to_text demo demo_path demo_world)
       = Val (join [newline] kept)
    /\ (kept <> [] ->
        sublist (split newline (join [newline] kept))
          (concat (List.map (split newline)
                     (List.map (fun c => clean (text c)) demo_cues))))
    /\ (kept <> [] ->
        Forall (Forall (fun x => x <> newline))
          (List.map (fun c => clean (text c)) demo_cues) ->
        sublist (split newline (join [newline] kept))
          (List.map (fun c => clean (text c)) demo_cues)).
Proof.
  apply (convert_preserves_order demo demo_path demo_world demo_cues).
  vm_compute. reflexivity.
Defined.

(** The lines of the output are not always a subsequence of the cleaned cue
    texts themselves: a kept cue of two lines gives two lines of output, and
    neither of them is the text of the cue. *)
Lemma multi_line_cue_lines :
  fst (webvtt_read demo_two_lines demo_path demo_world) = Val two_line_cues
  /\ List.map (fun c => clean (text c)) two_line_cues = [lit "a" ++ newline :: lit "b"]
  /\ fst (convert_subtitles_to_text demo_two_lines demo_path demo_world)
     = Val (lit "a" ++ newline :: lit "b")
  /\ split newline (lit "a" ++ newline :: lit "b") = [lit "a"; lit "b"]
  /\ ~ sublist (split newline (lit "a" ++ newline :: lit "b"))
        (List.map (fun c => clean (text c)) two_line_cues).
Proof.
  split; [vm_compute; reflexivity|]. split; [vm_compute; reflexivity|].
  split; [vm_compute; reflexivity|]. split; [vm_compute; reflexivity|].
  intros Hsub. apply sublist_length in Hsub. vm_compute in Hsub. lia.
Qed.

(** ** Claims about the derived title *)

Lemma sub_from_cls subject p fuel t :
  (length t < fuel)%nat ->
  sub_from subject (Cls p) [] fuel t = List.filter (fun x => negb (p x)) t.
Proof.
  revert fuel. induction t as [|x t IH]; intros fuel Hfuel;
    (destruct fuel as [|fuel]; [lia|]).
  - reflexivity.
  - cbn [sub_from run List.filter]. simpl in Hfuel.
    destruct (p x); cbn [head negb app].
    + replace (length t <? length (x :: t))%nat with true
        by (symmetry; apply Nat.ltb_lt; simpl; lia).
      apply IH. lia.
    + f_equal. apply IH. lia.
Qed.

Lemma re_sub_cls p t : re_sub (Cls p) [] t = List.filter (fun x => negb (p x)) t.
Proof. apply sub_from_cls. lia. Qed.

Ltac char_facts :=
  unfold title_char, ascii_alnum, in_range, invalid_in_filename, existsb in *;
  rewrite ?orb_true_iff, ?orb_false_iff, ?andb_true_iff, ?N.leb_le,
    ?N.eqb_eq, ?N.eqb_neq in *;
  cbv [chr N_of_ascii N_of_digits] in *; lia.

Lemma title_char_not_space x : title_char x = true -> (x =? chr " ") = false.
Proof. intros H. destruct (N.eqb_spec x (chr " ")) as [->|]; [|reflexivity]. char_facts. Qed.

Lemma title_char_valid x : title_char x = true -> invalid_in_filename x = false.
Proof. intros H. char_facts. Qed.

Lemma replace_filter_image t :
  List.filter (fun x => negb (negb (title_char x))) (replace (chr " ") (chr "-") t)
  = flat_map title_image t.
Proof.
  induction t as [|x t IH]; [reflexivity|].
  unfold replace in *. cbn [List.map List.filter flat_map]. rewrite IH.
  unfold title_image. destruct (x =? chr " "); [reflexivity|].
  destruct (title_char x); reflexivity.
Qed.

Lemma video_title_of_image info :
  video_title_of info
  = take 50 (flat_map title_image (strip (default (lit "video") (title info)))).
Proof.
  unfold video_title_of. rewrite re_sub_cls.
  change (fun x => negb (negb (ascii_alnum x || (x =? chr "-"))))
    with (fun x => negb (negb (title_char x))).
  rewrite replace_filter_image. reflexivity.
Qed.

Lemma title_image_chars t : Forall (fun x => title_char x = true) (flat_map title_image t).
Proof.
  induction t as [|x t IH]; [constructor|]. cbn [flat_map].
  apply Forall_app. split; [|exact IH]. unfold title_image.
  destruct (x =? chr " "); [repeat constructor|].
  destruct (title_char x) eqn:Hx; repeat constructor. exact Hx.
Qed.

Lemma sanitize_filename_fixed t :
  Forall (fun x => title_char x = true) t -> sanitize_filename t = t.
Proof.
  intros H. unfold sanitize_filename. rewrite re_sub_cls.
  induction H as [|x t Hx _ IH]; [reflexivity|].
  unfold replace in *. cbn [List.map List.filter].
  rewrite (title_char_not_space x Hx), (title_char_valid x Hx). cbn [negb].
  f_equal. exact IH.
Qed.

(** C6 as stated does not hold: two spaces in a row give two separators,
    where collapsing the run would give one. *)
Lemma double_space_not_collapsed :
  video_title_of (VideoInfo (Some (lit "a  b")) None None) = lit "a--b"
  /\ collapsed_title (lit "a  b") = lit "a-b".
Proof. split; vm_compute; reflexivity. Qed.

(** C6, amended: the derived title is the trimmed title with every space
    replaced by one [-], every other character that is not an ASCII letter, a
    digit or [-] removed, cut to 50 characters; so it has at most 50
    characters, all of them letters, digits or [-], [sanitize_filename]
    leaves it unchanged, and [My Video!] becomes [My-Video]. *)
Theorem video_title_of_safe info :
  let video_title := video_title_of info in
  video_title
  = take 50 (flat_map title_image (strip (default (lit "video") (title info))))
  /\ (length video_title <= 50)%nat
  /\ Forall (fun x => title_char x = true) video_title
  /\ sanitize_filename video_title = video_title
  /\ (title info = Some (lit "My Video!") -> video_title = lit "My-Video").
Proof.
  cbv zeta.
  assert (Forall (fun x => title_char x = true) (video_title_of info)) as Hchars.
  { rewrite video_title_of_image. apply Forall_take, title_image_chars. }
  split; [apply video_title_of_image|]. split.
  { rewrite video_title_of_image, length_take. lia. }
  split; [exact Hchars|]. split; [apply sanitize_filename_fixed, Hchars|].
  intros Ht. unfold video_title_of. rewrite Ht. vm_compute. reflexivity.
Qed.

Lemma video_title_of_safe_witness :
  video_title_of (VideoInfo (Some (lit "My Video!")) (Some {[ lit "en" := [] ]}) (Some ∅))
  = lit "My-Video".
Proof.
  apply (video_title_of_safe
           (VideoInfo (Some (lit "My Video!")) (Some {[ lit "en" := [] ]}) (Some ∅))).
  reflexivity.
Defined.

(** ** The pipeline after a download that completes *)

Lemma writes_app tr1 tr2 : writes (tr1 ++ tr2) = writes tr1 ++ writes tr2.
Proof. apply List.filter_app. Qed.

Lemma ensure_directory_writes E path note w r w' :
  ensure_directory E path note w = (r, w') -> writes (trace w') = writes (trace w).
Proof.
  unfold ensure_directory, os_path_exists, os_makedirs, refused, bind, log, emit,
    raise, ret.
  cbn [files trace]. destruct (bool_decide (is_Some (files w !! path))); cbn [negb].
  - intros [= _ <-]. reflexivity.
  - destruct (os_error E (MakeDirs path)); [intros [= _ <-]|];
      cbn [files trace]; rewrite ?writes_app, ?app_nil_r; try reflexivity.
    destruct (files w !! path); intros [= _ <-]; cbn [trace];
      rewrite ?writes_app, ?app_nil_r; reflexivity.
Qed.

Section AfterDownload.

Variables (E : Env) (url language : str) (info : video_info) (sel : selection).
Variables (w0 w1 : world) (fs : gmap str node).

Hypothesis Hinfo : ydl_metadata E initial_ydl_opts url = Val info.
Hypothesis Hsel :
  subtitle_availability (default ∅ (subtitles info))
    (default ∅ (automatic_captions info)) language = Some sel.
Hypothesis Hdir :
  ensure_directory E SUBTITLES_DIR subtitles_dir_note (after_extract url w0)
  = (Val tt, w1).
Hypothesis Hdl :
  ydl_download E (ydl_opts sel language (video_title_of info)) url (files w1)
  = (Val tt, fs).

Local Abbreviation video_title := (video_title_of info).
Local Abbreviation downloaded :=
  (trace w1 ++ [ExtractInfo (ydl_opts sel language video_title) url true]).

Ltac run_to_step5 :=
  unfold fetch_transcript; unfold bind at 1, attempt at 1, extract_info at 1;
  unfold bind at 1, emit at 1; cbn [files trace]; rewrite Hinfo, Hsel;
  unfold bind at 1; fold subtitles_dir_note; fold (after_extract url w0);
  rewrite Hdir;
  unfold bind at 1, attempt at 1, extract_info_download at 1;
  unfold bind at 1, emit at 1; cbn [files trace]; rewrite Hdl;
  unfold bind at 1, os_path_exists at 1; cbn [files].

(** Step 5 finds no file: a warning, and [None]. *)
Lemma fetch_transcript_missing_file :
  fs !! subtitle_path video_title language = None ->
  fetch_transcript E url language w0
  = (Val None,
     World fs
       (downloaded
          ++ [Log WARNING (lit "Subtitle file '"
                             ++ subtitle_filename video_title language
                             ++ lit "' not found.")])).
Proof.
  intros Hmissing. run_to_step5. rewrite Hmissing. reflexivity.
Qed.

(** Steps 6 and 7 on a caption file that parses: the pair of the normalized
    text and the title, whatever the text, and the file removed unless the
    operating system refuses. *)
Lemma fetch_transcript_parsed content cues :
  fs !! subtitle_path video_title language = Some (File content) ->
  webvtt_parse E content = Val cues ->
  exists w',
    fetch_transcript E url language w0
    = (Val (Some (join [newline] (kept_cues cues), video_title)), w')
    /\ writes (trace w') = writes (trace w1)
    /\ (files w' = fs \/ files w' = delete (subtitle_path video_title language) fs).
Proof.
  intros Hfile Hparse. run_to_step5. rewrite Hfile.
  replace (bool_decide (is_Some (Some (File content)))) with true
    by (symmetry; apply bool_decide_eq_true; eauto).
  cbn [negb]. unfold bind at 1. rewrite convert_subtitles_to_text_eq.
  unfold webvtt_read at 1. cbn [files fst]. rewrite Hfile. cbn [fst].
  rewrite Hparse.
  unfold bind at 1, attempt at 1, os_remove at 1.
  unfold bind at 1, emit at 1. unfold bind at 1, refused at 1.
  destruct (os_error E (Remove (subtitle_path video_title language)));
    unfold raise, ret, bind, log, emit; cbn [files trace].
  - eexists. split; [reflexivity|]. cbn [files trace].
    rewrite !writes_app, !app_nil_r. auto.
  - rewrite Hfile. eexists. split; [reflexivity|]. cbn [files trace].
    rewrite !writes_app, !app_nil_r. auto.
Qed.

End AfterDownload.

(** [process_url] on a URL the validator accepts: a log record, then
    [fetch_transcript], then the test on its result. *)
Lemma process_url_valid E url language w :
  is_valid_youtube_url E url = true ->
  process_url E url language w
  = match fetch_transcript E url language
            (World (files w) (trace w ++ [Log INFO (lit "Processing URL: " ++ url)]))
    with
    | (Val (Some (transcript, video_title)), w') =>
        if nonempty transcript
        then (save_transcript E transcript video_title;;; ret (Some video_title)) w'
        else (Val None, w')
    | (Val None, w') =>
        (Val None,
         World (files w')
           (trace w' ++ [Log WARNING (lit "Could not retrieve transcript for '"
                                        ++ url ++ lit "'.")]))
    | (Raise e, w') => (Raise e, w')
    end.
Proof.
  intros Hvalid. unfold process_url. unfold bind at 1, log at 1, emit at 1.
  rewrite Hvalid. cbn [negb]. unfold bind at 1.
  destruct (fetch_transcript E url language _) as [[[[transcript video_title]|]|e] w'];
    try reflexivity.
  destruct (nonempty transcript); reflexivity.
Qed.

(** ** Claims about the pipeline *)

Lemma after_metadata_writes url w : writes (trace (after_metadata url w)) = writes (trace w).
Proof.
  unfold after_metadata, after_extract. cbn [trace].
  rewrite !writes_app, !app_nil_r. reflexivity.
Qed.

(** When step 2 finds no captions for the language, [fetch_transcript]
    returns [None] after the metadata call and a warning: no download is
    asked for. *)
Lemma fetch_transcript_unavailable E url language w0 info :
  ydl_metadata E initial_ydl_opts url = Val info ->
  resolver (default ∅ (subtitles info)) (default ∅ (automatic_captions info)) language
  = Unavailable ->
  fetch_transcript E url language w0
  = (Val None,
     World (files w0)
       ((trace w0 ++ [ExtractInfo initial_ydl_opts url false])
          ++ [Log WARNING (lit "No '" ++ language ++ lit "' subtitles available for '"
                             ++ video_title_of info ++ lit "'.")])).
Proof.
  intros Hinfo Hres. unfold resolver in Hres.
  destruct (subtitle_availability _ _ language) as [sel|] eqn:Hsel.
  { destruct (write_automaticsub sel); discriminate. }
  unfold fetch_transcript. unfold bind at 1, attempt at 1, extract_info at 1.
  unfold bind at 1, emit at 1. cbn [files trace]. rewrite Hinfo, Hsel.
  reflexivity.
Qed.

(** C7: when the URL is valid, the metadata arrive, captions exist for the
    language and the download returns, but no file is at the expected path,
    [process_url] returns [None] (it does not raise), the files are as the
    download left them, and the request has written no file. *)
Theorem process_url_missing_file E url language w info sel w1 fs :
  is_valid_youtube_url E url = true ->
  ydl_metadata E initial_ydl_opts url = Val info ->
  subtitle_availability (default ∅ (subtitles info))
    (default ∅ (automatic_captions info)) language = Some sel ->
  ensure_directory E SUBTITLES_DIR subtitles_dir_note (after_metadata url w)
  = (Val tt, w1) ->
  ydl_download E (ydl_opts sel language (video_title_of info)) url (files w1)
  = (Val tt, fs) ->
  fs !! subtitle_path (video_title_of info) language = None ->
  exists w',
    process_url E url language w = (Val None, w')
    /\ files w' = fs
    /\ writes (trace w') = writes (trace w).
Proof.
  intros Hvalid Hinfo Hsel Hdir Hdl Hmissing.
  rewrite (process_url_valid _ _ _ _ Hvalid).
  rewrite (fetch_transcript_missing_file E url language info sel _ w1 fs
             Hinfo Hsel Hdir Hdl Hmissing).
  eexists. split; [reflexivity|]. split; [reflexivity|]. cbn [trace].
  rewrite !writes_app, !app_nil_r, (ensure_directory_writes _ _ _ _ _ _ Hdir).
  apply after_metadata_writes.
Qed.

Lemma process_url_missing_file_witness :
  exists w',
    process_url demo_no_file demo_url (lit "en") empty_world = (Val None, w')
    /\ files w' = files demo_ready
    /\ writes (trace w') = writes (trace empty_world).
Proof.
  apply (process_url_missing_file demo_no_file demo_url (lit "en") empty_world
           demo_info demo_selection demo_ready (files demo_ready));
    vm_compute; reflexivity.
Defined.

(** C3: when the URL is valid, the metadata arrive, captions exist for the
    language, the download leaves a caption file that parses, and the
    normalized text is empty, [fetch_transcript] returns the pair of the empty
    text and the title, as it does on any success: it does not test the text.
    Its caller [process_url] does, and returns [None], which is not the
    [Some] of a title it returns on success; the request has written no
    file. *)
Theorem process_url_empty_transcript E url language w info sel w1 fs content cues :
  is_valid_youtube_url E url = true ->
  ydl_metadata E initial_ydl_opts url = Val info ->
  subtitle_availability (default ∅ (subtitles info))
    (default ∅ (automatic_captions info)) language = Some sel ->
  ensure_directory E SUBTITLES_DIR subtitles_dir_note (after_metadata url w)
  = (Val tt, w1) ->
  ydl_download E (ydl_opts sel language (video_title_of info)) url (files w1)
  = (Val tt, fs) ->
  fs !! subtitle_path (video_title_of info) language = Some (File content) ->
  webvtt_parse E content = Val cues ->
  join [newline] (kept_cues cues) = [] ->
  exists w',
    fetch_transcript E url language
      (World (files w) (trace w ++ [Log INFO (lit "Processing URL: " ++ url)]))
    = (Val (Some ([], video_title_of info)), w')
    /\ process_url E url language w = (Val None, w')
    /\ (forall video_title, fst (process_url E url language w) <> Val (Some video_title))
    /\ writes (trace w') = writes (trace w).
Proof.
  intros Hvalid Hinfo Hsel Hdir Hdl Hfile Hparse Hempty.
  rewrite (process_url_valid _ _ _ _ Hvalid).
  destruct (fetch_transcript_parsed E url language info sel _ w1 fs
              Hinfo Hsel Hdir Hdl content cues Hfile Hparse)
    as (w' & -> & Hwrites & _).
  rewrite Hempty. cbn [nonempty]. exists w'. split; [reflexivity|].
  split; [reflexivity|].
  split; [intros video_title; discriminate|].
  rewrite Hwrites, (ensure_directory_writes _ _ _ _ _ _ Hdir).
  apply after_metadata_writes.
Qed.

Lemma process_url_empty_transcript_witness :
  exists w',
    fetch_transcript demo_blank demo_url (lit "en")
      (World (files empty_world)
         (trace empty_world ++ [Log INFO (lit "Processing URL: " ++ demo_url)]))
    = (Val (Some ([], video_title_of demo_info)), w')
    /\ process_url demo_blank demo_url (lit "en") empty_world = (Val None, w')
    /\ (forall video_title,
          fst (process_url demo_blank demo_url (lit "en") empty_world)
          <> Val (Some video_title))
    /\ writes (trace w') = writes (trace empty_world).
Proof.
  apply (process_url_empty_transcript demo_blank demo_url (lit "en") empty_world
           demo_info demo_selection demo_ready
           (<[ demo_path := File (lit "WEBVTT") ]> (files demo_ready))
           (lit "WEBVTT")
           [cue (lit "<c> </c>"); cue (lit "dropped"); cue (lit "  ")]);
    vm_compute; reflexivity.
Defined.

(** The outcome of the fetch itself is a success: on the demo video with
    blank cues the caption file is downloaded and parses into three cues, the
    normalized text is empty, and [fetch_transcript] returns the pair of the
    empty transcript and the title, not [None]. *)
Lemma empty_transcript_returned :
  webvtt_parse demo_blank (lit "WEBVTT")
  = Val [cue (lit "<c> </c>"); cue (lit "dropped"); cue (lit "  ")]
  /\ fst (convert_subtitles_to_text demo_blank demo_path demo_world) = Val []
  /\ fst (fetch_transcript demo_blank demo_url (lit "en") empty_world)
     = Val (Some ([], lit "My-Video"))
  /\ fst (fetch_transcript demo_blank demo_url (lit "en") empty_world) <> Val None.
Proof.
  split; [reflexivity|]. split; [vm_compute; reflexivity|].
  split; [vm_compute; reflexivity|]. vm_compute. discriminate.
Qed.

(** For contrast, the demo request with its four cues succeeds: the title is
    returned and the transcript is written under the output directory. *)
Example process_url_demo :
  let (r, w') := process_url demo demo_url (lit "en") empty_world in
  r = Val (Some (lit "My-Video"))
  /\ files w' !! lit "data/transcripts/My-Video.txt"
     = Some (File (lit "Hello" ++ newline :: lit "World"))
  /\ files w' !! demo_path = None
  /\ writes (trace w')
     = [WriteFile (lit "data/transcripts/My-Video.txt")
          (lit "Hello" ++ newline :: lit "World")].
Proof. vm_compute. auto. Qed.

(** What [fetch_transcript] itself returns when every cue is blank: the pair
    of the empty text and the title; it is [process_url] that turns it into
    [None]. *)
Example fetch_transcript_blank :
  fst (fetch_transcript demo_blank demo_url (lit "en") empty_world)
  = Val (Some ([], lit "My-Video")).
Proof. vm_compute. reflexivity. Qed.

(** ** Creating a directory *)

Lemma ancestors_last seen path : In (seen ++ path) (ancestors seen path).
Proof.
  revert seen. induction path as [|x path IH]; intros seen; simpl.
  - rewrite app_nil_r. left; reflexivity.
  - apply in_or_app. right.
    replace (seen ++ x :: path) with ((seen ++ [x]) ++ path)
      by (rewrite <- app_assoc; reflexivity).
    apply IH.
Qed.

Lemma add_dirs_old (dirs : list str) (fs : gmap str node) (k : str) (v : node) :
  fs !! k = Some v -> add_dirs dirs fs !! k = Some v.
Proof.
  intros H. induction dirs as [|d dirs IH]; [exact H|]. simpl.
  destruct (add_dirs dirs fs !! d) eqn:Hd; [exact IH|].
  rewrite lookup_insert_ne; [exact IH | congruence].
Qed.

Lemma add_dirs_new (dirs : list str) (fs : gmap str node) (k : str) :
  fs !! k = None -> add_dirs dirs fs !! k = None \/ add_dirs dirs fs !! k = Some Dir.
Proof.
  intros H. induction dirs as [|d dirs IH]; [left; exact H|]. simpl.
  destruct (add_dirs dirs fs !! d) eqn:Hd; [exact IH|].
  destruct (decide (d = k)) as [->|Hne].
  - right. apply lookup_insert_eq.
  - rewrite lookup_insert_ne by exact Hne. exact IH.
Qed.

Lemma add_dirs_in (dirs : list str) (fs : gmap str node) (d : str) :
  In d dirs -> is_Some (add_dirs dirs fs !! d).
Proof.
  induction dirs as [|d' dirs IH]; [intros []|]. intros [->|Hin]; simpl.
  - destruct (add_dirs dirs fs !! d) eqn:Hd; [rewrite Hd; eauto|].
    rewrite lookup_insert_eq. eauto.
  - destruct (add_dirs dirs fs !! d') eqn:Hd; [apply IH, Hin|].
    destruct (decide (d' = d)) as [->|Hne].
    + rewrite lookup_insert_eq. eauto.
    + rewrite lookup_insert_ne by exact Hne. apply IH, Hin.
Qed.

(** The three ways [ensure_directory] can go. *)
Lemma ensure_directory_cases E path note w :
  (is_Some (files w !! path) /\ ensure_directory E path note w = (Val tt, w))
  \/ (files w !! path = None
      /\ exists m, os_error E (MakeDirs path) = Some m
         /\ ensure_directory E path note w
            = (Raise (Exception m), World (files w) (trace w ++ [MakeDirs path])))
  \/ (files w !! path = None /\ os_error E (MakeDirs path) = None
      /\ ensure_directory E path note w
         = (Val tt,
            World (add_dirs (ancestors [] path) (files w))
              ((trace w ++ [MakeDirs path]) ++ [Log DEBUG note]))).
Proof.
  unfold ensure_directory, os_path_exists, os_makedirs, refused, bind, log, emit,
    raise, ret. cbn [files trace].
  destruct (files w !! path) as [nd|] eqn:Hp.
  - left. split; [eauto|].
    rewrite (bool_decide_eq_true_2 (is_Some (Some nd))) by eauto.
    destruct w; reflexivity.
  - right. rewrite (bool_decide_eq_false_2 (is_Some None)) by (intros [? [=]]).
    cbn [negb]. destruct (os_error E (MakeDirs path)) as [m|].
    + left. split; [reflexivity|]. exists m. split; reflexivity.
    + right. cbn [files trace]. rewrite Hp. repeat split; reflexivity.
Qed.

(** ** The stages of [fetch_transcript] *)

Section FetchStages.

Variables (E : Env) (url language : str) (w : world).

Ltac run_step1 :=
  unfold fetch_transcript; unfold bind at 1, attempt at 1, extract_info at 1;
  unfold bind at 1, emit at 1; cbn [files trace].

(** Step 1 fails: an error record, and [None]. *)
Lemma fetch_transcript_no_metadata e :
  ydl_metadata E initial_ydl_opts url = Raise e ->
  exists note,
    fetch_transcript E url language w
    = (Val None,
       World (files w) (trace (after_extract url w) ++ [Log ERROR note])).
Proof.
  intros Hmeta. run_step1. rewrite Hmeta. destruct e; eexists; reflexivity.
Qed.

Variable info : video_info.
Hypothesis Hinfo : ydl_metadata E initial_ydl_opts url = Val info.

Local Abbreviation video_title := (video_title_of info).

(** Step 2 finds no captions: a warning, and [None]. *)
Lemma fetch_transcript_no_captions :
  subtitle_availability (default ∅ (subtitles info))
    (default ∅ (automatic_captions info)) language = None ->
  exists note,
    fetch_transcript E url language w
    = (Val None,
       World (files w) (trace (after_extract url w) ++ [Log WARNING note])).
Proof.
  intros Hsel. run_step1. rewrite Hinfo, Hsel. eexists. reflexivity.
Qed.

Variable sel : selection.
Hypothesis Hsel :
  subtitle_availability (default ∅ (subtitles info))
    (default ∅ (automatic_captions info)) language = Some sel.

Ltac run_step3 :=
  run_step1; rewrite Hinfo, Hsel; unfold bind at 1; fold subtitles_dir_note;
  fold (after_extract url w).

(** The directory cannot be created: the exception leaves
    [fetch_transcript]. *)
Lemma fetch_transcript_no_directory e w1 :
  ensure_directory E SUBTITLES_DIR subtitles_dir_note (after_extract url w)
  = (Raise e, w1) ->
  fetch_transcript E url language w = (Raise e, w1).
Proof. intros Hdir. run_step3. rewrite Hdir. reflexivity. Qed.

Variable w1 : world.
Hypothesis Hdir :
  ensure_directory E SUBTITLES_DIR subtitles_dir_note (after_extract url w)
  = (Val tt, w1).

Local Abbreviation download_request :=
  (ExtractInfo (ydl_opts sel language video_title) url true).

Ltac run_step4 :=
  run_step3; rewrite Hdir;
  unfold bind at 1, attempt at 1, extract_info_download at 1;
  unfold bind at 1, emit at 1; cbn [files trace].

(** Step 4 fails: an error record, and [None]. *)
Lemma fetch_transcript_download_failed e fs :
  ydl_download E (ydl_opts sel language video_title) url (files w1) = (Raise e, fs) ->
  exists note,
    fetch_transcript E url language w
    = (Val None,
       World fs ((trace w1 ++ [download_request]) ++ [Log ERROR note])).
Proof.
  intros Hdl. run_step4. rewrite Hdl. destruct e; eexists; reflexivity.
Qed.

(** Steps 5 to 7 when something is at the expected path: the pair of a text
    and the title, after an attempt to remove the file. *)
Lemma fetch_transcript_found fs nd :
  ydl_download E (ydl_opts sel language video_title) url (files w1) = (Val tt, fs) ->
  fs !! subtitle_path video_title language = Some nd ->
  exists transcript_text evs fs',
    fetch_transcript E url language w
    = (Val (Some (transcript_text, video_title)),
       World fs' ((trace w1 ++ [download_request]) ++ evs))
    /\ Forall (fetch_event_ok url language) evs
    /\ network_calls evs = []
    /\ In (Remove (subtitle_path video_title language)) evs
    /\ (fs' = fs \/ fs' = delete (subtitle_path video_title language) fs)
    /\ (os_error E (Remove (subtitle_path video_title language)) = None ->
        (exists content, nd = File content) ->
        fs' = delete (subtitle_path video_title language) fs)
    /\ (forall content cues,
          nd = File content -> webvtt_parse E content = Val cues ->
          transcript_text = join [newline] (kept_cues cues)).
Proof.
  intros Hdl Hnd. run_step4. rewrite Hdl.
  unfold bind at 1, os_path_exists at 1. cbn [files]. rewrite Hnd.
  rewrite (bool_decide_eq_true_2 (is_Some (Some nd))) by eauto.
  cbn [negb]. unfold bind at 1. rewrite convert_subtitles_to_text_eq.
  unfold webvtt_read at 1. cbn [files fst]. rewrite Hnd.
  assert (fetch_event_ok url language (Remove (subtitle_path video_title language)))
    as Hrm by (exists video_title; reflexivity).
  destruct nd as [content|];
    [destruct (webvtt_parse E content) as [cues|e] eqn:Hparse|]; cbn [fst];
    unfold bind at 1, attempt at 1, os_remove at 1;
    unfold bind at 1, emit at 1; unfold bind at 1, refused at 1;
    (destruct (os_error E (Remove (subtitle_path video_title language))) as [m|];
     unfold raise, ret, bind, log, emit; cbn [files trace]; rewrite ?Hnd;
     cbn [files trace]; eexists _, _, _; (split; [rewrite <- !app_assoc; reflexivity|]);
     (split; [cbn [app];
              repeat (apply List.Forall_cons; [first [exact Hrm | exact I]|]);
              apply List.Forall_nil|]);
     (split; [reflexivity|]); (split; [cbn; tauto|]);
     (split; [auto|]);
     (split;
      [ intros; try discriminate; try reflexivity;
        try (match goal with H : exists _, Dir = File _ |- _ =>
               destruct H; discriminate end)
      | intros ? ? [= <-] ?; congruence || reflexivity ])).
Qed.

End FetchStages.

(** ** [fetch_transcript] in general *)

(** Once the directory is there, [fetch_transcript] asks for the download and
    returns without raising; what it adds to the trace after that request
    holds no further network call. *)
Lemma fetch_transcript_after_directory E url language w info sel w1 :
  ydl_metadata E initial_ydl_opts url = Val info ->
  subtitle_availability (default ∅ (subtitles info))
    (default ∅ (automatic_captions info)) language = Some sel ->
  ensure_directory E SUBTITLES_DIR subtitles_dir_note (after_extract url w)
  = (Val tt, w1) ->
  exists r evs fs',
    fetch_transcript E url language w
    = (Val r,
       World fs'
         ((trace w1 ++ [ExtractInfo (ydl_opts sel language (video_title_of info)) url true])
            ++ evs))
    /\ Forall (fetch_event_ok url language) evs
    /\ network_calls evs = []
    /\ (forall transcript video_title,
          r = Some (transcript, video_title) ->
          video_title = video_title_of info
          /\ forall content,
               fs' !! subtitle_path video_title language = Some (File content) ->
               exists m, os_error E (Remove (subtitle_path video_title language)) = Some m).
Proof.
  intros Hinfo Hsel Hdir.
  destruct (ydl_download E (ydl_opts sel language (video_title_of info)) url (files w1))
    as [[[]|e] fs] eqn:Hdl.
  - destruct (fs !! subtitle_path (video_title_of info) language) as [nd|] eqn:Hnd.
    + destruct (fetch_transcript_found E url language w info Hinfo sel Hsel w1 Hdir
                  fs nd Hdl Hnd)
        as (text & evs & fs' & -> & Hok & Hnet & _ & Hfs & Hrm & _).
      exists (Some (text, video_title_of info)), evs, fs'.
      split; [reflexivity|]. split; [exact Hok|]. split; [exact Hnet|].
      intros ? ? [= <- <-]. split; [reflexivity|]. intros content Hcontent.
      destruct (os_error E (Remove (subtitle_path (video_title_of info) language)))
        as [m|] eqn:Herr; [eauto|]. exfalso.
      destruct Hfs as [->| ->].
      * rewrite Hnd in Hcontent. injection Hcontent as ->.
        specialize (Hrm eq_refl (ex_intro _ content eq_refl)).
        apply (f_equal (fun m => m !! subtitle_path (video_title_of info) language)) in Hrm.
        rewrite lookup_delete_eq, Hnd in Hrm. discriminate.
      * rewrite lookup_delete_eq in Hcontent. discriminate.
    + rewrite (fetch_transcript_missing_file E url language info sel w w1 fs
                 Hinfo Hsel Hdir Hdl Hnd).
      eexists None, _, fs. split; [reflexivity|]. split; [repeat constructor|].
      split; [reflexivity | discriminate].
  - destruct (fetch_transcript_download_failed E url language w info Hinfo sel Hsel
                w1 Hdir e fs Hdl) as (note & ->).
    eexists None, _, fs. split; [reflexivity|]. split; [repeat constructor|].
    split; [reflexivity | discriminate].
Qed.

(** What [fetch_transcript] adds to the trace, whatever the environment
    answers. *)
Lemma fetch_transcript_trace E url language w :
  exists evs,
    trace (snd (fetch_transcript E url language w))
    = trace w ++ ExtractInfo initial_ydl_opts url false :: evs
    /\ Forall (fetch_event_ok url language) evs
    /\ (length (network_calls evs) <= 1)%nat.
Proof.
  destruct (ydl_metadata E initial_ydl_opts url) as [info|e] eqn:Hmeta.
  2:{ destruct (fetch_transcript_no_metadata E url language w e Hmeta) as (note & ->).
      eexists. cbn [snd trace after_extract]. rewrite <- app_assoc.
      split; [reflexivity|]. split; [repeat constructor | cbn; lia]. }
  destruct (subtitle_availability (default ∅ (subtitles info))
              (default ∅ (automatic_captions info)) language) as [sel|] eqn:Hsel.
  2:{ destruct (fetch_transcript_no_captions E url language w info Hmeta Hsel)
        as (note & ->).
      eexists. cbn [snd trace after_extract]. rewrite <- app_assoc.
      split; [reflexivity|]. split; [repeat constructor | cbn; lia]. }
  assert (forall w1 evs1,
            ensure_directory E SUBTITLES_DIR subtitles_dir_note (after_extract url w)
            = (Val tt, w1) ->
            trace w1 = trace (after_extract url w) ++ evs1 ->
            Forall (fetch_event_ok url language) evs1 ->
            network_calls evs1 = [] ->
            exists evs,
              trace (snd (fetch_transcript E url language w))
              = trace w ++ ExtractInfo initial_ydl_opts url false :: evs
              /\ Forall (fetch_event_ok url language) evs
              /\ (length (network_calls evs) <= 1)%nat) as Hafter.
  { intros w1 evs1 Hdir Htr Hok1 Hnet1.
    destruct (fetch_transcript_after_directory E url language w info sel w1
                Hmeta Hsel Hdir) as (r & evs & fs' & -> & Hok & Hnet & _).
    exists (evs1 ++ ExtractInfo (ydl_opts sel language (video_title_of info)) url true
              :: evs).
    cbn [snd trace]. rewrite Htr. cbn [after_extract trace].
    split; [rewrite <- !app_assoc; reflexivity|]. split.
    - apply Forall_app. split; [exact Hok1|]. constructor; [split; reflexivity | exact Hok].
    - unfold network_calls in *. rewrite List.filter_app, length_app, Hnet1.
      cbn [List.filter length]. rewrite Hnet. cbn. lia. }
  destruct (ensure_directory_cases E SUBTITLES_DIR subtitles_dir_note
              (after_extract url w)) as [[_ Hd]|[(_ & m & _ & Hd)|(_ & _ & Hd)]].
  - apply (Hafter _ [] Hd); [rewrite app_nil_r; reflexivity | constructor | reflexivity].
  - rewrite (fetch_transcript_no_directory E url language w info Hmeta sel Hsel _ _ Hd).
    eexists. cbn [snd trace after_extract]. rewrite <- app_assoc.
    split; [reflexivity|]. split; [repeat constructor | cbn; lia].
  - apply (Hafter _ [MakeDirs SUBTITLES_DIR; Log DEBUG subtitles_dir_note] Hd).
    + cbn [trace]. rewrite <- app_assoc. reflexivity.
    + repeat constructor.
    + reflexivity.
Qed.

(** An exception leaves [fetch_transcript] only when the directory for the
    captions is missing and the operating system refuses to create it. *)
Lemma fetch_transcript_raise_inv E url language w e :
  fst (fetch_transcript E url language w) = Raise e ->
  files w !! SUBTITLES_DIR = None
  /\ os_error E (MakeDirs SUBTITLES_DIR) = Some (message e)
  /\ exists info, ydl_metadata E initial_ydl_opts url = Val info.
Proof.
  destruct (ydl_metadata E initial_ydl_opts url) as [info|e'] eqn:Hmeta.
  2:{ destruct (fetch_transcript_no_metadata E url language w e' Hmeta) as (note & ->).
      discriminate. }
  destruct (subtitle_availability (default ∅ (subtitles info))
              (default ∅ (automatic_captions info)) language) as [sel|] eqn:Hsel.
  2:{ destruct (fetch_transcript_no_captions E url language w info Hmeta Hsel)
        as (note & ->). discriminate. }
  destruct (ensure_directory_cases E SUBTITLES_DIR subtitles_dir_note
              (after_extract url w)) as [[_ Hd]|[(Hno & m & Hm & Hd)|(_ & _ & Hd)]].
  - destruct (fetch_transcript_after_directory E url language w info sel _
                Hmeta Hsel Hd) as (r & evs & fs' & -> & _). discriminate.
  - rewrite (fetch_transcript_no_directory E url language w info Hmeta sel Hsel _ _ Hd).
    cbn [fst]. intros [= <-]. cbn [message]. eauto.
  - destruct (fetch_transcript_after_directory E url language w info sel _
                Hmeta Hsel Hd) as (r & evs & fs' & -> & _). discriminate.
Qed.


Lemma subtitle_availability_Some (subtitles automatic_captions : gmap str tracks)
    language sel :
  subtitle_availability subtitles automatic_captions language = Some sel ->
  download_subtitles sel = true
  /\ write_automaticsub sel = negb (bool_decide (language ∈ dom subtitles))
  /\ (language ∈ dom subtitles \/ language ∈ dom automatic_captions).
Proof.
  unfold subtitle_availability.
  destruct (bool_decide (is_Some (subtitles !! language))) eqn:Hs.
  - apply bool_decide_eq_true, elem_of_dom in Hs. intros [= <-]. cbn.
    rewrite bool_decide_eq_true_2 by exact Hs. auto.
  - apply bool_decide_eq_false in Hs. rewrite <- elem_of_dom in Hs.
    destruct (bool_decide (is_Some (automatic_captions !! language))) eqn:Ha;
      [|discriminate].
    apply bool_decide_eq_true, elem_of_dom in Ha. intros [= <-]. cbn.
    rewrite bool_decide_eq_false_2 by exact Hs. auto.
Qed.

(** What a returned pair tells about the run. *)
Lemma fetch_transcript_some_inv E url language w transcript video_title :
  fst (fetch_transcript E url language w) = Val (Some (transcript, video_title)) ->
  exists info sel,
    ydl_metadata E initial_ydl_opts url = Val info
    /\ video_title = video_title_of info
    /\ (language ∈ dom (default ∅ (subtitles info))
        \/ language ∈ dom (default ∅ (automatic_captions info)))
    /\ In (ExtractInfo (ydl_opts sel language video_title) url true)
         (trace (snd (fetch_transcript E url language w))).
Proof.
  intros Hsome.
  destruct (ydl_metadata E initial_ydl_opts url) as [info|e'] eqn:Hmeta.
  2:{ destruct (fetch_transcript_no_metadata E url language w e' Hmeta) as (note & H).
      rewrite H in Hsome. discriminate. }
  destruct (subtitle_availability (default ∅ (subtitles info))
              (default ∅ (automatic_captions info)) language) as [sel|] eqn:Hsel.
  2:{ destruct (fetch_transcript_no_captions E url language w info Hmeta Hsel)
        as (note & H). rewrite H in Hsome. discriminate. }
  exists info, sel. split; [reflexivity|].
  assert (forall w1,
            ensure_directory E SUBTITLES_DIR subtitles_dir_note (after_extract url w)
            = (Val tt, w1) ->
            video_title = video_title_of info
            /\ (language ∈ dom (default ∅ (subtitles info))
                \/ language ∈ dom (default ∅ (automatic_captions info)))
            /\ In (ExtractInfo (ydl_opts sel language video_title) url true)
                 (trace (snd (fetch_transcript E url language w)))) as Hafter.
  { intros w1 Hd.
    destruct (fetch_transcript_after_directory E url language w info sel w1
                Hmeta Hsel Hd) as (r & evs & fs' & H & _ & _ & Hr).
    rewrite H in Hsome |- *. cbn [fst snd trace] in Hsome |- *.
    injection Hsome as ->. destruct (Hr _ _ eq_refl) as [-> _].
    split; [reflexivity|].
    split; [apply (subtitle_availability_Some _ _ _ _ Hsel)|].
    apply in_or_app. left. apply in_or_app. right. left. reflexivity. }
  destruct (ensure_directory_cases E SUBTITLES_DIR subtitles_dir_note
              (after_extract url w)) as [[_ Hd]|[(Hno & m & Hm & Hd)|(_ & _ & Hd)]].
  - apply (Hafter _ Hd).
  - rewrite (fetch_transcript_no_directory E url language w info Hmeta sel Hsel _ _ Hd)
      in Hsome. discriminate.
  - apply (Hafter _ Hd).
Qed.


(** X: when the metadata cannot be fetched, or list no captions for the
    language, [fetch_transcript] returns [None], leaves the files as they
    were, and its only network call is the request for the metadata: no
    download is asked for. *)
Theorem fetch_transcript_stops_early E url language w :
  match ydl_metadata E initial_ydl_opts url with
  | Val info =>
      resolver (default ∅ (subtitles info)) (default ∅ (automatic_captions info))
        language = Unavailable
  | Raise _ => True
  end ->
  fst (fetch_transcript E url language w) = Val None
  /\ files (snd (fetch_transcript E url language w)) = files w
  /\ network_calls (trace (snd (fetch_transcript E url language w)))
     = network_calls (trace w) ++ [ExtractInfo initial_ydl_opts url false].
Proof.
  intros H.
  assert (exists lvl note,
            fetch_transcript E url language w
            = (Val None,
               World (files w) (trace (after_extract url w) ++ [Log lvl note])))
    as (lvl & note & ->).
  { destruct (ydl_metadata E initial_ydl_opts url) as [info|e] eqn:Hmeta.
    - unfold resolver in H.
      destruct (subtitle_availability (default ∅ (subtitles info))
                  (default ∅ (automatic_captions info)) language) as [sel|] eqn:Hsel.
      { destruct (write_automaticsub sel); discriminate. }
      destruct (fetch_transcript_no_captions E url language w info Hmeta Hsel)
        as (note & ->). eauto.
    - destruct (fetch_transcript_no_metadata E url language w e Hmeta) as (note & ->).
      eauto. }
  cbn [fst snd files trace after_extract]. split; [reflexivity|].
  split; [reflexivity|]. unfold network_calls. rewrite !List.filter_app.
  cbn [List.filter]. apply app_nil_r.
Qed.

Lemma fetch_transcript_stops_early_witness :
  fst (fetch_transcript demo_offline demo_url (lit "en") empty_world) = Val None
  /\ files (snd (fetch_transcript demo_offline demo_url (lit "en") empty_world))
     = files empty_world
  /\ network_calls (trace (snd (fetch_transcript demo_offline demo_url (lit "en")
                                  empty_world)))
     = network_calls (trace empty_world) ++ [ExtractInfo initial_ydl_opts demo_url false].
Proof.
  apply (fetch_transcript_stops_early demo_offline demo_url (lit "en") empty_world).
  exact I.
Defined.

(** X: when [fetch_transcript] returns a pair and the operating system does
    not refuse the removal, no caption file is left at the expected path. *)
Theorem fetch_transcript_cleans_up E url language w transcript video_title :
  fst (fetch_transcript E url language w) = Val (Some (transcript, video_title)) ->
  os_error E (Remove (subtitle_path video_title language)) = None ->
  forall content,
    files (snd (fetch_transcript E url language w))
      !! subtitle_path video_title language <> Some (File content).
Proof.
  intros Hsome Hrm content Hcontent.
  destruct (ydl_metadata E initial_ydl_opts url) as [info|e'] eqn:Hmeta.
  2:{ destruct (fetch_transcript_no_metadata E url language w e' Hmeta) as (note & H).
      rewrite H in Hsome. discriminate. }
  destruct (subtitle_availability (default ∅ (subtitles info))
              (default ∅ (automatic_captions info)) language) as [sel|] eqn:Hsel.
  2:{ destruct (fetch_transcript_no_captions E url language w info Hmeta Hsel)
        as (note & H). rewrite H in Hsome. discriminate. }
  assert (forall w1,
            ensure_directory E SUBTITLES_DIR subtitles_dir_note (after_extract url w)
            = (Val tt, w1) -> False) as Hafter.
  { intros w1 Hd.
    destruct (fetch_transcript_after_directory E url language w info sel w1
                Hmeta Hsel Hd) as (r & evs & fs' & H & _ & _ & Hr).
    rewrite H in Hsome, Hcontent. cbn [fst snd files] in Hsome, Hcontent.
    injection Hsome as ->. destruct (Hr _ _ eq_refl) as [_ Hleft].
    destruct (Hleft content Hcontent) as [m Hm]. congruence. }
  destruct (ensure_directory_cases E SUBTITLES_DIR subtitles_dir_note
              (after_extract url w)) as [[_ Hd]|[(Hno & m & Hm & Hd)|(_ & _ & Hd)]].
  - apply (Hafter _ Hd).
  - rewrite (fetch_transcript_no_directory E url language w info Hmeta sel Hsel _ _ Hd)
      in Hsome. discriminate.
  - apply (Hafter _ Hd).
Qed.

Lemma fetch_transcript_cleans_up_witness :
  files (snd (fetch_transcript demo demo_url (lit "en") empty_world))
    !! subtitle_path (lit "My-Video") (lit "en") <> Some (File (lit "WEBVTT")).
Proof.
  apply (fetch_transcript_cleans_up demo demo_url (lit "en") empty_world
           (lit "Hello" ++ newline :: lit "World") (lit "My-Video"));
    vm_compute; reflexivity.
Defined.

(** ** The download request and the expected path *)

Lemma video_title_of_chars info : Forall (fun x => title_char x = true) (video_title_of info).
Proof. rewrite video_title_of_image. apply Forall_take, title_image_chars. Qed.

Lemma title_char_not_slash x : title_char x = true -> (x =? chr "/") = false.
Proof. intros H. destruct (N.eqb_spec x (chr "/")) as [->|]; [|reflexivity]. char_facts. Qed.

Lemma os_path_join_subtitles_dir video_title rest :
  Forall (fun x => title_char x = true) video_title ->
  os_path_join SUBTITLES_DIR (video_title ++ chr "." :: rest)
  = SUBTITLES_DIR ++ chr "/" :: video_title ++ chr "." :: rest.
Proof.
  intros H. destruct H as [|x video_title Hx _]; [reflexivity|].
  unfold os_path_join. cbn [app]. rewrite (title_char_not_slash x Hx). reflexivity.
Qed.

(** X: the download request of step 3 never asks for the video, asks for the
    one language, asks for automatic captions exactly when the language has no
    user provided captions, and names an output template in the captions
    directory whose stem is the derived title: the stem of the path where
    step 5 expects the file. *)
Theorem ydl_opts_request info language sel :
  subtitle_availability (default ∅ (subtitles info))
    (default ∅ (automatic_captions info)) language = Some sel ->
  let video_title := video_title_of info in
  let request := ydl_opts sel language video_title in
  skip_download request = true
  /\ writesubtitles request = Some true
  /\ writeautomaticsub request
     = Some (negb (bool_decide (language ∈ dom (default ∅ (subtitles info)))))
  /\ subtitleslangs request = Some [language]
  /\ outtmpl request
     = Some (SUBTITLES_DIR ++ chr "/" :: video_title ++ lit ".%(ext)s")
  /\ subtitle_path video_title language
     = SUBTITLES_DIR ++ chr "/" :: video_title ++ lit "." ++ language ++ lit ".vtt".
Proof.
  intros Hsel. cbv zeta.
  destruct (subtitle_availability_Some _ _ _ _ Hsel) as (Hd & Ha & _).
  pose proof (video_title_of_chars info) as Hchars.
  unfold ydl_opts. cbn [skip_download writesubtitles writeautomaticsub subtitleslangs outtmpl].
  rewrite Hd, Ha, (sanitize_filename_fixed _ Hchars).
  repeat (split; [reflexivity|]). split.
  - f_equal. apply (os_path_join_subtitles_dir _ (lit "%(ext)s") Hchars).
  - unfold subtitle_path, subtitle_filename.
    apply (os_path_join_subtitles_dir _ (language ++ lit ".vtt") Hchars).
Qed.

Lemma ydl_opts_request_witness :
  let video_title := video_title_of demo_info in
  let request := ydl_opts demo_selection (lit "en") video_title in
  skip_download request = true
  /\ writesubtitles request = Some true
  /\ writeautomaticsub request
     = Some (negb (bool_decide (lit "en" ∈ dom (default ∅ (subtitles demo_info)))))
  /\ subtitleslangs request = Some [lit "en"]
  /\ outtmpl request
     = Some (SUBTITLES_DIR ++ chr "/" :: video_title ++ lit ".%(ext)s")
  /\ subtitle_path video_title (lit "en")
     = SUBTITLES_DIR ++ chr "/" :: video_title ++ lit "." ++ lit "en" ++ lit ".vtt".
Proof.
  apply (ydl_opts_request demo_info (lit "en") demo_selection).
  vm_compute. reflexivity.
Defined.

(** ** More about the normalizer *)

Lemma kept_from_length idx cues :
  (length (kept_from idx cues)
   <= if Nat.even idx then Nat.div2 (S (length cues)) else Nat.div2 (length cues))%nat.
Proof.
  revert idx. induction cues as [|c cues IH]; intros idx.
  - unfold kept_from. destruct (Nat.even idx); cbn; lia.
  - rewrite kept_from_cons, length_app, even_mod2. specialize (IH (S idx)).
    rewrite Nat.even_succ, <- Nat.negb_even in IH.
    destruct (Nat.even idx); cbn [negb andb length] in *.
    + rewrite andb_true_r. cbn [Nat.div2].
      destruct (nonempty (clean (text c))); cbn [length]; lia.
    + rewrite andb_false_r. cbn [length]. lia.
Qed.

(** X: the normalizer keeps at most every other cue: of [n] cues, at most
    [n/2] rounded up. *)
Theorem transcript_of_length cues :
  (length (transcript_of cues) <= Nat.div2 (S (length cues)))%nat.
Proof. rewrite transcript_of_kept. apply (kept_from_length 0). Qed.

Lemma kept_from_even_positions idx (cues1 cues2 : list caption) :
  length cues1 = length cues2 ->
  (forall i c1 c2, Nat.even (idx + i) = true ->
     cues1 !! i = Some c1 -> cues2 !! i = Some c2 -> text c1 = text c2) ->
  kept_from idx cues1 = kept_from idx cues2.
Proof.
  revert idx cues2. induction cues1 as [|c1 cues1 IH]; intros idx [|c2 cues2] Hlen Heq;
    try discriminate; [reflexivity|].
  rewrite !kept_from_cons. f_equal.
  - rewrite even_mod2. destruct (Nat.even idx) eqn:He.
    + rewrite (Heq 0%nat c1 c2); [reflexivity| |reflexivity|reflexivity].
      rewrite Nat.add_0_r. exact He.
    + rewrite !andb_false_r. reflexivity.
  - apply IH; [simpl in Hlen; lia|]. intros i d1 d2 He H1 H2.
    apply (Heq (S i) d1 d2); [|exact H1|exact H2].
    rewrite Nat.add_succ_r. exact He.
Qed.

(** X: the cues at odd positions play no part: two caption tracks of the
    same length whose cues at even positions have the same texts give the
    same transcript. *)
Theorem transcript_of_even_positions (cues1 cues2 : list caption) :
  length cues1 = length cues2 ->
  (forall i c1 c2, Nat.even i = true ->
     cues1 !! i = Some c1 -> cues2 !! i = Some c2 -> text c1 = text c2) ->
  transcript_of cues1 = transcript_of cues2.
Proof.
  intros Hlen Heq. rewrite !transcript_of_kept. apply (kept_from_even_positions 0 _ _ Hlen).
  exact Heq.
Qed.

Lemma transcript_of_even_positions_witness :
  transcript_of demo_cues
  = transcript_of [cue (lit "Hello"); cue (lit "lost"); cue (lit "World"); cue (lit "gone")].
Proof.
  apply (transcript_of_even_positions demo_cues
           [cue (lit "Hello"); cue (lit "lost"); cue (lit "World"); cue (lit "gone")]).
  - reflexivity.
  - intros [|[|[|[|i]]]] c1 c2 He; try discriminate;
      intros [= <-] [= <-]; reflexivity.
Defined.

(** ** [sanitize_filename] *)

Lemma sanitize_filename_filter t :
  sanitize_filename t
  = List.filter (fun x => negb (invalid_in_filename x)) (replace (chr " ") (chr "-") t).
Proof. unfold sanitize_filename. apply re_sub_cls. Qed.

Lemma sanitize_filename_keeps t :
  Forall (fun x => (x =? chr " ") = false /\ invalid_in_filename x = false) t ->
  sanitize_filename t = t.
Proof.
  intros H. rewrite sanitize_filename_filter.
  induction H as [|x t [Hx Hv] _ IH]; [reflexivity|].
  unfold replace in *. cbn [List.map List.filter]. rewrite Hx, Hv. cbn [negb].
  f_equal. exact IH.
Qed.

Lemma sanitize_filename_chars t :
  Forall (fun x => (x =? chr " ") = false /\ invalid_in_filename x = false)
    (sanitize_filename t).
Proof.
  rewrite sanitize_filename_filter. induction t as [|y t IH]; [constructor|].
  unfold replace in *. cbn [List.map List.filter].
  destruct (invalid_in_filename (if y =? chr " " then chr "-" else y)) eqn:Hv;
    cbn [negb]; [exact IH|].
  constructor; [|exact IH]. split; [|exact Hv].
  destruct (y =? chr " ") eqn:Hy; [reflexivity | exact Hy].
Qed.

(** X: the result of [sanitize_filename] holds no space and none of the nine
    characters of its pattern (among them both slashes), and is never longer
    than the title. *)
Theorem sanitize_filename_clean t :
  Forall (fun x => x <> chr " " /\ invalid_in_filename x = false /\ x <> chr "/")
    (sanitize_filename t)
  /\ (length (sanitize_filename t) <= length t)%nat.
Proof.
  split.
  - eapply Forall_impl; [apply sanitize_filename_chars|]. intros x [Hs Hv].
    split; [apply N.eqb_neq, Hs|]. split; [exact Hv|].
    intros ->. vm_compute in Hv. discriminate.
  - rewrite sanitize_filename_filter.
    etransitivity; [apply List.filter_length_le|]. unfold replace.
    rewrite length_map. reflexivity.
Qed.

(** X: [sanitize_filename] is idempotent. *)
Theorem sanitize_filename_idempotent t :
  sanitize_filename (sanitize_filename t) = sanitize_filename t.
Proof. apply sanitize_filename_keeps, sanitize_filename_chars. Qed.

(** ** What [fetch_transcript] guarantees *)

Lemma network_calls_app tr1 tr2 :
  network_calls (tr1 ++ tr2) = network_calls tr1 ++ network_calls tr2.
Proof. apply List.filter_app. Qed.

Lemma fetch_events_writes url language evs :
  Forall (fetch_event_ok url language) evs -> writes evs = [].
Proof.
  induction 1 as [|ev evs Hev _ IH]; [reflexivity|].
  destruct ev; cbn [writes List.filter] in *; try exact IH. destruct Hev.
Qed.

Lemma fetch_events_downloads url language evs :
  Forall (fetch_event_ok url language) evs ->
  Forall (fun ev => exists opts, ev = ExtractInfo opts url true) (network_calls evs).
Proof.
  induction 1 as [|ev evs Hev _ IH]; [constructor|].
  destruct ev; cbn [network_calls List.filter] in *; try exact IH.
  destruct Hev as [-> ->]. constructor; [eauto | exact IH].
Qed.

(** X: whatever the environment answers, the network calls of
    [fetch_transcript] are the request for the metadata of the URL and, after
    it, at most one download request for the same URL; and it writes no
    file. *)
Theorem fetch_transcript_events E url language w :
  let tr := trace (snd (fetch_transcript E url language w)) in
  (exists rest,
     network_calls tr
     = network_calls (trace w) ++ ExtractInfo initial_ydl_opts url false :: rest
     /\ (length rest <= 1)%nat
     /\ Forall (fun ev => exists opts, ev = ExtractInfo opts url true) rest)
  /\ writes tr = writes (trace w).
Proof.
  cbv zeta. destruct (fetch_transcript_trace E url language w) as (evs & -> & Hok & Hlen).
  split.
  - exists (network_calls evs).
    rewrite network_calls_app. cbn [network_calls List.filter].
    split; [reflexivity|]. split; [exact Hlen|].
    apply (fetch_events_downloads url language), Hok.
  - rewrite writes_app. cbn [writes List.filter].
    fold (writes evs). rewrite (fetch_events_writes url language evs Hok).
    apply app_nil_r.
Qed.

(** X: when the directory for the captions exists, or the operating system
    lets it be created, [fetch_transcript] returns: no exception leaves it,
    whatever the platform, the download and the parser do. *)
Theorem fetch_transcript_returns E url language w :
  is_Some (files w !! SUBTITLES_DIR) \/ os_error E (MakeDirs SUBTITLES_DIR) = None ->
  exists r, fst (fetch_transcript E url language w) = Val r.
Proof.
  intros Hdir. destruct (fst (fetch_transcript E url language w)) as [r|e] eqn:Hr;
    [eauto|].
  apply fetch_transcript_raise_inv in Hr as (Hnone & Hrefused & _). exfalso.
  destruct Hdir as [[nd Hnd]|Hok]; congruence.
Qed.

Lemma fetch_transcript_returns_witness :
  exists r, fst (fetch_transcript demo demo_url (lit "en") empty_world) = Val r.
Proof.
  apply (fetch_transcript_returns demo demo_url (lit "en") empty_world).
  right. reflexivity.
Defined.

Lemma output_path_of_title video_title :
  Forall (fun x => title_char x = true) video_title ->
  (length video_title <= 50)%nat ->
  output_path video_title = OUTPUT_DIR ++ chr "/" :: video_title ++ lit ".txt".
Proof.
  intros Hchars Hlen. unfold output_path.
  rewrite (sanitize_filename_fixed _ Hchars), take_ge by exact Hlen.
  destruct Hchars as [|x video_title Hx _]; [reflexivity|].
  unfold os_path_join. cbn [app]. rewrite (title_char_not_slash x Hx). reflexivity.
Qed.

Lemma video_title_of_length info : (length (video_title_of info) <= 50)%nat.
Proof. rewrite video_title_of_image, length_take. lia. Qed.

(** X: the title in a pair returned by [fetch_transcript] has at most 50
    characters, all of them ASCII letters, digits or [-]; so
    [sanitize_filename] leaves it unchanged and [save_transcript] writes it
    under the output directory as the title followed by [.txt]. *)
Theorem fetch_transcript_title E url language w transcript video_title :
  fst (fetch_transcript E url language w) = Val (Some (transcript, video_title)) ->
  (length video_title <= 50)%nat
  /\ Forall (fun x => title_char x = true) video_title
  /\ sanitize_filename video_title = video_title
  /\ output_path video_title = OUTPUT_DIR ++ chr "/" :: video_title ++ lit ".txt".
Proof.
  intros Hsome.
  apply fetch_transcript_some_inv in Hsome as (info & sel & _ & -> & _).
  pose proof (video_title_of_chars info) as Hchars.
  pose proof (video_title_of_length info) as Hlen.
  split; [exact Hlen|]. split; [exact Hchars|].
  split; [apply sanitize_filename_fixed, Hchars|].
  apply output_path_of_title; assumption.
Qed.

Lemma fetch_transcript_title_witness :
  (length (lit "My-Video") <= 50)%nat
  /\ Forall (fun x => title_char x = true) (lit "My-Video")
  /\ sanitize_filename (lit "My-Video") = lit "My-Video"
  /\ output_path (lit "My-Video") = OUTPUT_DIR ++ chr "/" :: lit "My-Video" ++ lit ".txt".
Proof.
  apply (fetch_transcript_title demo demo_url (lit "en") empty_world
           (lit "Hello" ++ newline :: lit "World") (lit "My-Video")).
  vm_compute. reflexivity.
Defined.

(** ** [save_transcript] *)

Lemma add_dirs_other (dirs : list str) (fs : gmap str node) (k : str) :
  ~ In k dirs -> add_dirs dirs fs !! k = fs !! k.
Proof.
  induction dirs as [|d dirs IH]; [reflexivity|]. intros Hk. simpl.
  assert (d <> k) as Hne by (intros ->; apply Hk; left; reflexivity).
  assert (~ In k dirs) as Hk' by (intros H; apply Hk; right; exact H).
  destruct (add_dirs dirs fs !! d); [apply IH, Hk'|].
  rewrite lookup_insert_ne by exact Hne. apply IH, Hk'.
Qed.

Lemma output_path_form video_title :
  let name := take 50 (sanitize_filename video_title) in
  output_path video_title = OUTPUT_DIR ++ chr "/" :: name ++ lit ".txt"
  /\ (length name <= 50)%nat
  /\ Forall (fun x => x <> chr "/" /\ x <> chr "\") name.
Proof.
  cbv zeta.
  assert (Forall (fun x => x <> chr "/" /\ x <> chr "\")
            (take 50 (sanitize_filename video_title))) as Hname.
  { apply Forall_take. eapply Forall_impl; [apply sanitize_filename_chars|].
    intros x [_ Hv]. split; intros ->; vm_compute in Hv; discriminate. }
  split; [|split; [rewrite length_take; lia | exact Hname]].
  unfold output_path.
  destruct (take 50 (sanitize_filename video_title)) as [|x name] eqn:Hn;
    [reflexivity|].
  inversion Hname as [|? ? [Hx _] _]; subst.
  unfold os_path_join. cbn [app]. apply N.eqb_neq in Hx. rewrite Hx. reflexivity.
Qed.

Lemma output_path_not_created video_title :
  ~ In (output_path video_title) (ancestors [] OUTPUT_DIR).
Proof.
  destruct (output_path_form video_title) as (Hp & _ & _). rewrite Hp.
  intros Hin. apply (f_equal (@length char)) in Hp.
  assert (forall d, In d (ancestors [] OUTPUT_DIR) -> (length d <= 16)%nat) as Hshort.
  { intros d Hd. vm_compute in Hd. destruct Hd as [<-|[<-|[]]]; cbn; lia. }
  apply Hshort in Hin. rewrite length_app in Hin. cbn in Hin. lia.
Qed.

(** The ways [save_transcript] can go once the output directory is there: the
    write succeeds; or it fails, and the file is as it was when [open] failed
    and holds the part written when a later step failed. *)
Lemma save_transcript_from E transcript video_title w w1 :
  ensure_directory E OUTPUT_DIR
    (lit "Created output directory '" ++ OUTPUT_DIR ++ lit "'.") w = (Val tt, w1) ->
  let attempted := trace w1 ++ [WriteFile (output_path video_title) transcript] in
  ((os_error E (WriteFile (output_path video_title) transcript) = None
    /\ files w1 !! output_path video_title <> Some Dir
    /\ exists note,
         save_transcript E transcript video_title w
         = (Val tt,
            World (<[output_path video_title := File transcript]> (files w1))
              (attempted ++ [Log INFO note])))
   \/ ((is_Some (os_error E (WriteFile (output_path video_title) transcript))
        \/ files w1 !! output_path video_title = Some Dir)
       /\ exists note,
            save_transcript E transcript video_title w
            = (Val tt,
               World
                 match files w1 !! output_path video_title,
                       os_written E (output_path video_title) transcript with
                 | Some Dir, _ | _, None => files w1
                 | _, Some n =>
                     <[output_path video_title := File (take n transcript)]> (files w1)
                 end
                 (attempted ++ [Log ERROR note])))).
Proof.
  intros Hdir. cbv zeta. unfold save_transcript, bind, attempt. cbv beta.
  rewrite Hdir. unfold write_file, bind, emit. cbv beta.
  fold (output_path video_title). cbn [files trace].
  destruct (os_error E (WriteFile (output_path video_title) transcript)) as [m|] eqn:Herr.
  - right. split; [left; eauto|]. unfold raise, log, emit.
    destruct (files w1 !! output_path video_title) as [[content|]|],
      (os_written E (output_path video_title) transcript) as [n|];
      cbn [files trace]; eexists; reflexivity.
  - unfold ret, log, emit, raise. cbn [files trace].
    destruct (files w1 !! output_path video_title) as [[content|]|] eqn:Hp.
    + left. split; [reflexivity|]. split; [discriminate|]. eexists. reflexivity.
    + right. split; [right; reflexivity|]. eexists. reflexivity.
    + left. split; [reflexivity|]. split; [discriminate|]. eexists. reflexivity.
Qed.

(** [save_transcript] when the output directory cannot be created. *)
Lemma save_transcript_no_directory E transcript video_title w m :
  files w !! OUTPUT_DIR = None ->
  os_error E (MakeDirs OUTPUT_DIR) = Some m ->
  exists note,
    save_transcript E transcript video_title w
    = (Val tt,
       World (files w) ((trace w ++ [MakeDirs OUTPUT_DIR]) ++ [Log ERROR note])).
Proof.
  intros Hno Hm.
  destruct (ensure_directory_cases E OUTPUT_DIR
              (lit "Created output directory '" ++ OUTPUT_DIR ++ lit "'.") w)
    as [[[nd Hnd] _]|[(_ & m' & _ & Hd)|(_ & Hm' & _)]]; [congruence| |congruence].
  unfold save_transcript, bind, attempt. cbv beta.
  rewrite Hd. unfold log, emit. cbn [files trace]. eexists. reflexivity.
Qed.

Local Abbreviation output_dir_note :=
  (lit "Created output directory '" ++ OUTPUT_DIR ++ lit "'.").

(** What [save_transcript] does to the trace: it returns, having added log
    records, at most the creation of the output directory and at most one
    write. *)
Lemma save_transcript_trace E transcript video_title w :
  exists w' evs,
    save_transcript E transcript video_title w = (Val tt, w')
    /\ trace w' = trace w ++ evs
    /\ Forall (save_event_ok transcript video_title) evs
    /\ (length (writes evs) <= 1)%nat.
Proof.
  assert (forall w1 evs1,
            ensure_directory E OUTPUT_DIR output_dir_note w = (Val tt, w1) ->
            trace w1 = trace w ++ evs1 ->
            Forall (save_event_ok transcript video_title) evs1 ->
            writes evs1 = [] ->
            exists w' evs,
              save_transcript E transcript video_title w = (Val tt, w')
              /\ trace w' = trace w ++ evs
              /\ Forall (save_event_ok transcript video_title) evs
              /\ (length (writes evs) <= 1)%nat) as Hafter.
  { intros w1 evs1 Hd Htr Hok Hw.
    assert (Forall (save_event_ok transcript video_title)
              [WriteFile (output_path video_title) transcript]) as Hwrite
      by (repeat constructor).
    destruct (save_transcript_from E transcript video_title w w1 Hd)
      as [(_ & _ & note & ->)|(_ & note & ->)];
      eexists _, (evs1 ++ [WriteFile (output_path video_title) transcript] ++ [_]);
      (split; [reflexivity|]); cbn [trace]; rewrite Htr;
      (split; [rewrite <- !app_assoc; reflexivity|]);
      (split; [apply Forall_app; split; [exact Hok|];
               apply Forall_app; split; [exact Hwrite | repeat constructor]|]);
      rewrite writes_app, Hw; cbn; lia. }
  destruct (ensure_directory_cases E OUTPUT_DIR output_dir_note w)
    as [[_ Hd]|[(Hno & m & Hm & _)|(_ & _ & Hd)]].
  - apply (Hafter _ [] Hd); [rewrite app_nil_r; reflexivity | constructor | reflexivity].
  - destruct (save_transcript_no_directory E transcript video_title w m Hno Hm)
      as (note & ->).
    eexists _, [MakeDirs OUTPUT_DIR; Log ERROR note]. split; [reflexivity|].
    cbn [trace]. split; [rewrite <- app_assoc; reflexivity|].
    split; [repeat constructor | cbn; lia].
  - apply (Hafter _ [MakeDirs OUTPUT_DIR; Log DEBUG output_dir_note] Hd).
    + cbn [trace]. rewrite <- app_assoc. reflexivity.
    + repeat constructor.
    + reflexivity.
Qed.

(** The files [save_transcript] leaves: every file that was there and is not
    at the output path is still there. *)
Lemma save_transcript_files E transcript video_title w (k : str) (v : node) :
  files w !! k = Some v -> k <> output_path video_title ->
  files (snd (save_transcript E transcript video_title w)) !! k = Some v.
Proof.
  intros Hk Hne.
  assert (forall w1,
            ensure_directory E OUTPUT_DIR output_dir_note w = (Val tt, w1) ->
            files w1 !! k = Some v ->
            files (snd (save_transcript E transcript video_title w)) !! k = Some v)
    as Hafter.
  { intros w1 Hd Hk1.
    destruct (save_transcript_from E transcript video_title w w1 Hd)
      as [(_ & _ & note & ->)|(_ & note & ->)]; cbn [snd files].
    - rewrite lookup_insert_ne by congruence. exact Hk1.
    - destruct (files w1 !! output_path video_title) as [[content|]|],
        (os_written E (output_path video_title) transcript) as [n|];
        try exact Hk1; rewrite lookup_insert_ne by congruence; exact Hk1. }
  destruct (ensure_directory_cases E OUTPUT_DIR output_dir_note w)
    as [[_ Hd]|[(Hno & m & Hm & _)|(_ & _ & Hd)]].
  - apply (Hafter _ Hd Hk).
  - destruct (save_transcript_no_directory E transcript video_title w m Hno Hm)
      as (note & ->). exact Hk.
  - apply (Hafter _ Hd). cbn [files]. apply add_dirs_old, Hk.
Qed.

(** X: [save_transcript] always returns: a refusal of the operating system
    is logged, not raised.  It calls the network never, removes nothing, and
    every file that was there and is not at its output path is still
    there. *)
Theorem save_transcript_never_raises E transcript video_title w :
  exists w',
    save_transcript E transcript video_title w = (Val tt, w')
    /\ network_calls (trace w') = network_calls (trace w)
    /\ (forall p, In (Remove p) (trace w') -> In (Remove p) (trace w))
    /\ (forall (k : str) (v : node),
          files w !! k = Some v -> k <> output_path video_title ->
          files w' !! k = Some v).
Proof.
  destruct (save_transcript_trace E transcript video_title w)
    as (w' & evs & Hrun & Htr & Hok & _).
  exists w'. split; [exact Hrun|].
  assert (network_calls evs = [] /\ forall p, ~ In (Remove p) evs) as [Hnet Hrm].
  { clear Htr. induction Hok as [|ev evs Hev _ [IH1 IH2]]; [split; [reflexivity | intros ? []]|].
    destruct ev; try destruct Hev; (split; [exact IH1|]);
      intros p [[=]|Hin]; apply (IH2 p Hin). }
  split; [rewrite Htr, network_calls_app, Hnet; apply app_nil_r|].
  split.
  - intros p Hin. rewrite Htr in Hin. apply in_app_or in Hin as [Hin|Hin];
      [exact Hin | destruct (Hrm p Hin)].
  - intros k v Hk Hne.
    pose proof (save_transcript_files E transcript video_title w k v Hk Hne) as H.
    rewrite Hrun in H. exact H.
Qed.

(** When the output directory exists or may be created, the write is not
    refused and no directory is in the way, the transcript is left in the
    file at the output path. *)
Lemma save_transcript_written E transcript video_title w :
  is_Some (files w !! OUTPUT_DIR) \/ os_error E (MakeDirs OUTPUT_DIR) = None ->
  os_error E (WriteFile (output_path video_title) transcript) = None ->
  files w !! output_path video_title <> Some Dir ->
  files (snd (save_transcript E transcript video_title w)) !! output_path video_title
  = Some (File transcript).
Proof.
  intros Hdir Hwrite Hfree.
  assert (forall w1,
            ensure_directory E OUTPUT_DIR output_dir_note w = (Val tt, w1) ->
            files w1 !! output_path video_title = files w !! output_path video_title ->
            files (snd (save_transcript E transcript video_title w))
              !! output_path video_title = Some (File transcript)) as Hafter.
  { intros w1 Hd Hsame.
    destruct (save_transcript_from E transcript video_title w w1 Hd)
      as [(_ & _ & note & ->)|([[m Hm]|Hdirp] & _)].
    - cbn [snd files]. apply lookup_insert_eq.
    - congruence.
    - congruence. }
  destruct (ensure_directory_cases E OUTPUT_DIR output_dir_note w)
    as [[_ Hd]|[(Hno & m & Hm & _)|(_ & _ & Hd)]].
  - apply (Hafter _ Hd eq_refl).
  - destruct Hdir as [[nd Hnd]|Hok]; congruence.
  - apply (Hafter _ Hd). cbn [files]. apply add_dirs_other, output_path_not_created.
Qed.


(** X: when the operating system refuses the write, [save_transcript]
    still returns normally.  When it is [open] that failed, or a directory is
    in the way, the output path holds what it held before.  When the file had
    been opened and a later step failed, what the file held before is lost:
    it holds the part of the transcript that was written by then. *)
Theorem save_transcript_refused E transcript video_title w m :
  os_error E (WriteFile (output_path video_title) transcript) = Some m ->
  let w' := snd (save_transcript E transcript video_title w) in
  fst (save_transcript E transcript video_title w) = Val tt
  /\ (os_written E (output_path video_title) transcript = None
      \/ files w !! output_path video_title = Some Dir ->
      files w' !! output_path video_title = files w !! output_path video_title)
  /\ (forall n,
        os_written E (output_path video_title) transcript = Some n ->
        is_Some (files w !! OUTPUT_DIR) \/ os_error E (MakeDirs OUTPUT_DIR) = None ->
        files w !! output_path video_title <> Some Dir ->
        files w' !! output_path video_title = Some (File (take n transcript))).
Proof.
  intros Hwrite. cbv zeta.
  assert (forall w1,
            ensure_directory E OUTPUT_DIR output_dir_note w = (Val tt, w1) ->
            files w1 !! output_path video_title = files w !! output_path video_title ->
            fst (save_transcript E transcript video_title w) = Val tt
            /\ (os_written E (output_path video_title) transcript = None
                \/ files w !! output_path video_title = Some Dir ->
                files (snd (save_transcript E transcript video_title w))
                  !! output_path video_title
                = files w !! output_path video_title)
            /\ (forall n,
                  os_written E (output_path video_title) transcript = Some n ->
                  files w !! output_path video_title <> Some Dir ->
                  files (snd (save_transcript E transcript video_title w))
                    !! output_path video_title
                  = Some (File (take n transcript)))) as Hafter.
  { intros w1 Hd Hsame.
    destruct (save_transcript_from E transcript video_title w w1 Hd)
      as [(Hok & _)|(_ & note & ->)]; [congruence|].
    cbn [fst snd files]. rewrite Hsame. split; [reflexivity|]. split.
    - intros [Hopen|Hdirp].
      + rewrite Hopen.
        destruct (files w !! output_path video_title) as [[content|]|]; exact Hsame.
      + rewrite Hdirp. rewrite <- Hdirp. exact Hsame.
    - intros n -> Hfree.
      destruct (files w !! output_path video_title) as [[content|]|];
        [|congruence|]; apply lookup_insert_eq. }
  destruct (ensure_directory_cases E OUTPUT_DIR output_dir_note w)
    as [[_ Hd]|[(Hno & m' & Hm & _)|(_ & _ & Hd)]].
  - destruct (Hafter _ Hd eq_refl) as (H1 & H2 & H3).
    split; [exact H1|]. split; [exact H2|]. intros n Hn _. apply H3, Hn.
  - destruct (save_transcript_no_directory E transcript video_title w m' Hno Hm)
      as (note & ->). split; [reflexivity|]. split; [reflexivity|].
    intros n _ [[nd Hnd]|Hok]; congruence.
  - assert (files (World (add_dirs (ancestors [] OUTPUT_DIR) (files w))
                     ((trace w ++ [MakeDirs OUTPUT_DIR]) ++ [Log DEBUG output_dir_note]))
              !! output_path video_title
            = files w !! output_path video_title) as Hsame
      by (cbn [files]; apply add_dirs_other, output_path_not_created).
    destruct (Hafter _ Hd Hsame) as (H1 & H2 & H3).
    split; [exact H1|]. split; [exact H2|]. intros n Hn _. apply H3, Hn.
Qed.

Lemma save_transcript_refused_witness :
  fst (save_transcript demo_disk_full (lit "Hello") (lit "My-Video") demo_saved) = Val tt
  /\ files demo_saved !! output_path (lit "My-Video")
     = Some (File (lit "an earlier transcript"))
  /\ files (snd (save_transcript demo_disk_full (lit "Hello") (lit "My-Video") demo_saved))
       !! output_path (lit "My-Video")
     = Some (File (lit "He")).
Proof.
  destruct (save_transcript_refused demo_disk_full (lit "Hello") (lit "My-Video")
              demo_saved (lit "No space left on device") eq_refl)
    as (Hreturns & _ & Hpartial).
  split; [exact Hreturns|]. split; [vm_compute; reflexivity|].
  apply (Hpartial 2%nat); [reflexivity | left; vm_compute; eauto | vm_compute; discriminate].
Defined.

(** X: whatever the title, a file that [save_transcript] writes lies directly
    in the output directory: its path is the directory, a slash, a name of at
    most 50 characters with no slash and no backslash, and [.txt]; and what
    is written is the transcript. *)
Theorem save_transcript_confined E transcript video_title w path content :
  In (WriteFile path content) (trace (snd (save_transcript E transcript video_title w))) ->
  In (WriteFile path content) (trace w)
  \/ (content = transcript
      /\ exists name,
           path = OUTPUT_DIR ++ chr "/" :: name ++ lit ".txt"
           /\ (length name <= 50)%nat
           /\ Forall (fun x => x <> chr "/" /\ x <> chr "\") name).
Proof.
  destruct (save_transcript_trace E transcript video_title w)
    as (w' & evs & -> & Htr & Hok & _).
  cbn [snd]. rewrite Htr. intros Hin. apply in_app_or in Hin as [Hin|Hin]; [left; exact Hin|].
  right. rewrite Forall_forall in Hok. apply list_elem_of_In, Hok in Hin.
  destruct Hin as [-> ->]. split; [reflexivity|].
  destruct (output_path_form video_title) as (Hp & Hlen & Hname).
  exists (take 50 (sanitize_filename video_title)). auto.
Qed.

Lemma save_transcript_confined_witness :
  In (WriteFile (lit "data/transcripts/.....txt") (lit "Hello")) (trace empty_world)
  \/ (lit "Hello" = lit "Hello"
      /\ exists name,
           lit "data/transcripts/.....txt" = OUTPUT_DIR ++ chr "/" :: name ++ lit ".txt"
           /\ (length name <= 50)%nat
           /\ Forall (fun x => x <> chr "/" /\ x <> chr "\") name).
Proof.
  apply (save_transcript_confined demo (lit "Hello") (lit "../..") empty_world
           (lit "data/transcripts/.....txt") (lit "Hello")).
  vm_compute. right. right. left. reflexivity.
Defined.

(** ** [process_url] in general *)

Lemma process_url_rejected E url language w :
  is_valid_youtube_url E url = false ->
  process_url E url language w
  = (Val None,
     World (files w)
       ((trace w ++ [Log INFO (lit "Processing URL: " ++ url)])
          ++ [Log ERROR (lit "Invalid YouTube URL: " ++ url)])).
Proof.
  intros H. unfold process_url, bind, log, emit, ret. rewrite H. reflexivity.
Qed.

Lemma fetch_event_process E url language ev :
  is_valid_youtube_url E url = true ->
  fetch_event_ok url language ev -> process_event_ok E url language ev.
Proof.
  intros Hvalid. destruct ev; cbn; tauto.
Qed.

Lemma save_event_process E url language transcript video_title ev :
  transcript <> [] ->
  save_event_ok transcript video_title ev -> process_event_ok E url language ev.
Proof.
  intros Hne. destruct ev; cbn; try tauto.
  intros [-> ->]. split; [exact Hne|]. exists video_title. reflexivity.
Qed.

Lemma save_events_network transcript video_title evs :
  Forall (save_event_ok transcript video_title) evs -> network_calls evs = [].
Proof.
  induction 1 as [|ev evs Hev _ IH]; [reflexivity|].
  destruct ev; cbn [network_calls List.filter] in *; try exact IH. destruct Hev.
Qed.

Lemma nonempty_true t : nonempty t = true <-> t <> [].
Proof. destruct t; cbn; split; congruence. Qed.

(** What [process_url] adds to the trace, whatever the environment answers. *)
Lemma process_url_trace E url language w :
  exists evs,
    trace (snd (process_url E url language w)) = trace w ++ evs
    /\ Forall (process_event_ok E url language) evs
    /\ (length (network_calls evs) <= 2)%nat
    /\ (length (writes evs) <= 1)%nat.
Proof.
  destruct (is_valid_youtube_url E url) eqn:Hvalid.
  2:{ rewrite (process_url_rejected _ _ _ _ Hvalid). eexists. cbn [snd trace].
      rewrite <- app_assoc. split; [reflexivity|].
      split; [repeat constructor | cbn; lia]. }
  rewrite (process_url_valid _ _ _ _ Hvalid).
  destruct (fetch_transcript_trace E url language
              (World (files w) (trace w ++ [Log INFO (lit "Processing URL: " ++ url)])))
    as (evs & Htr & Hok & Hnet).
  pose proof (fetch_events_writes url language evs Hok) as Hwr.
  assert (Forall (process_event_ok E url language) evs) as Hok'
    by (eapply Forall_impl; [exact Hok | intros ev; apply fetch_event_process, Hvalid]).
  destruct (fetch_transcript E url language _) as [[[[transcript video_title]|]|e] w1];
    cbn [snd trace] in Htr.
  - destruct (nonempty transcript) eqn:Hne.
    + apply nonempty_true in Hne.
      destruct (save_transcript_trace E transcript video_title w1)
        as (w2 & evs2 & Hsave & Htr2 & Hok2 & Hwr2).
      unfold bind, ret. rewrite Hsave. cbn [snd]. rewrite Htr2, Htr.
      exists (Log INFO (lit "Processing URL: " ++ url)
                :: ExtractInfo initial_ydl_opts url false :: evs ++ evs2).
      split; [rewrite <- !app_assoc; reflexivity|]. split.
      * constructor; [exact I|]. constructor; [split; [reflexivity | exact Hvalid]|].
        apply Forall_app. split; [exact Hok'|].
        eapply Forall_impl; [exact Hok2|]. intros ev.
        apply (save_event_process E url language transcript video_title), Hne.
      * cbn [network_calls writes List.filter length].
        fold (network_calls (evs ++ evs2)). fold (writes (evs ++ evs2)).
        rewrite network_calls_app, writes_app, !length_app,
          (save_events_network _ _ _ Hok2), Hwr.
        cbn [length]. unfold network_calls in Hnet. unfold network_calls. lia.
    + cbn [snd]. rewrite Htr.
      exists (Log INFO (lit "Processing URL: " ++ url)
                :: ExtractInfo initial_ydl_opts url false :: evs).
      split; [rewrite <- !app_assoc; reflexivity|]. split.
      * constructor; [exact I|]. constructor; [split; [reflexivity | exact Hvalid]|].
        exact Hok'.
      * cbn [network_calls writes List.filter length].
        fold (network_calls evs). fold (writes evs). rewrite Hwr. cbn [length].
        unfold network_calls in *. lia.
  - cbn [snd trace]. rewrite Htr.
    exists (Log INFO (lit "Processing URL: " ++ url)
              :: ExtractInfo initial_ydl_opts url false
              :: evs ++ [Log WARNING (lit "Could not retrieve transcript for '"
                                        ++ url ++ lit "'.")]).
    split; [rewrite <- !app_assoc; reflexivity|]. split.
    + constructor; [exact I|]. constructor; [split; [reflexivity | exact Hvalid]|].
      apply Forall_app. split; [exact Hok' | repeat constructor].
    + cbn [network_calls writes List.filter length].
      fold (network_calls (evs ++ [Log WARNING (lit "Could not retrieve transcript for '"
                                                  ++ url ++ lit "'.")])).
      fold (writes (evs ++ [Log WARNING (lit "Could not retrieve transcript for '"
                                           ++ url ++ lit "'.")])).
      rewrite network_calls_app, writes_app, !length_app, Hwr. cbn.
      unfold network_calls in *. lia.
  - cbn [snd]. rewrite Htr.
    exists (Log INFO (lit "Processing URL: " ++ url)
              :: ExtractInfo initial_ydl_opts url false :: evs).
    split; [rewrite <- !app_assoc; reflexivity|]. split.
    + constructor; [exact I|]. constructor; [split; [reflexivity | exact Hvalid]|].
      exact Hok'.
    + cbn [network_calls writes List.filter length].
      fold (network_calls evs). fold (writes evs). rewrite Hwr. cbn [length].
      unfold network_calls in *. lia.
Qed.

Lemma process_events_calls E url language evs :
  Forall (process_event_ok E url language) evs ->
  Forall (fun ev => exists opts download, ev = ExtractInfo opts url download)
    (network_calls evs)
  /\ Forall (fun ev => exists video_title content,
               ev = WriteFile (output_path video_title) content /\ content <> [])
       (writes evs)
  /\ (network_calls evs <> [] -> is_valid_youtube_url E url = true).
Proof.
  induction 1 as [|ev evs Hev _ (IH1 & IH2 & IH3)].
  - repeat split; try constructor. intros H; destruct (H eq_refl).
  - destruct ev; cbn [network_calls writes List.filter] in *; repeat split;
      try exact IH1; try exact IH2; try exact IH3.
    + destruct Hev as [-> _]. constructor; [eauto | exact IH1].
    + intros _. apply Hev.
    + destruct Hev as (Hne & video_title & ->). constructor; [eauto | exact IH2].
Qed.

(** X: whatever the environment answers, [process_url] makes at most two
    network calls, all about its URL and none unless the validator accepts
    the URL, and writes at most one file, which is not empty and lies at an
    output path. *)
Theorem process_url_events E url language w :
  let tr := trace (snd (process_url E url language w)) in
  exists calls saves,
    network_calls tr = network_calls (trace w) ++ calls
    /\ writes tr = writes (trace w) ++ saves
    /\ (length calls <= 2)%nat
    /\ (length saves <= 1)%nat
    /\ Forall (fun ev => exists opts download, ev = ExtractInfo opts url download) calls
    /\ Forall (fun ev => exists video_title content,
                 ev = WriteFile (output_path video_title) content /\ content <> [])
         saves
    /\ (calls <> [] -> is_valid_youtube_url E url = true).
Proof.
  cbv zeta. destruct (process_url_trace E url language w) as (evs & -> & Hok & Hn & Hw).
  destruct (process_events_calls E url language evs Hok) as (Hcalls & Hsaves & Hvalid).
  exists (network_calls evs), (writes evs).
  rewrite network_calls_app, writes_app. auto 10.
Qed.

(** X: [process_url] returns a title exactly when the validator accepts the
    URL and [fetch_transcript] returns that title with a transcript that is
    not empty; whether [save_transcript] could write the file plays no
    part. *)
Theorem process_url_some E url language w video_title :
  fst (process_url E url language w) = Val (Some video_title)
  <-> is_valid_youtube_url E url = true
      /\ exists transcript,
           transcript <> []
           /\ fst (fetch_transcript E url language
                     (World (files w)
                        (trace w ++ [Log INFO (lit "Processing URL: " ++ url)])))
              = Val (Some (transcript, video_title)).
Proof.
  destruct (is_valid_youtube_url E url) eqn:Hvalid.
  2:{ rewrite (process_url_rejected _ _ _ _ Hvalid). cbn [fst].
      split; [discriminate | intros [[=] _]]. }
  rewrite (process_url_valid _ _ _ _ Hvalid).
  destruct (fetch_transcript E url language _) as [[[[transcript title]|]|e] w1];
    cbn [fst].
  - destruct (nonempty transcript) eqn:Hne.
    + destruct (save_transcript_trace E transcript title w1) as (w2 & evs & Hsave & _).
      unfold bind, ret. rewrite Hsave. cbn [fst]. split.
      * intros [= ->]. split; [reflexivity|]. exists transcript.
        split; [apply nonempty_true, Hne | reflexivity].
      * intros (_ & t & _ & [= -> ->]). reflexivity.
    + split; [discriminate|]. intros (_ & t & Ht & [= -> ->]).
      apply nonempty_true in Ht. congruence.
  - split; [discriminate|]. intros (_ & t & _ & [=]).
  - split; [discriminate|]. intros (_ & t & _ & [=]).
Qed.

(** X: an exception leaves [process_url] only when the URL is valid, the
    directory for the captions is missing and the operating system refuses to
    create it. *)
Theorem process_url_raises E url language w e :
  fst (process_url E url language w) = Raise e ->
  is_valid_youtube_url E url = true
  /\ files w !! SUBTITLES_DIR = None
  /\ os_error E (MakeDirs SUBTITLES_DIR) = Some (message e).
Proof.
  destruct (is_valid_youtube_url E url) eqn:Hvalid.
  2:{ rewrite (process_url_rejected _ _ _ _ Hvalid). discriminate. }
  rewrite (process_url_valid _ _ _ _ Hvalid).
  destruct (fetch_transcript E url language _) as [[[[transcript title]|]|e'] w1] eqn:Hf;
    cbn [fst].
  - destruct (nonempty transcript); [|discriminate].
    destruct (save_transcript_trace E transcript title w1) as (w2 & evs & Hsave & _).
    unfold bind, ret. rewrite Hsave. discriminate.
  - discriminate.
  - intros [= ->]. split; [reflexivity|].
    apply (f_equal fst) in Hf. cbn [fst] in Hf.
    apply fetch_transcript_raise_inv in Hf as (Hno & Hm & _). auto.
Qed.

Lemma process_url_raises_witness :
  is_valid_youtube_url demo_readonly demo_url = true
  /\ files empty_world !! SUBTITLES_DIR = None
  /\ os_error demo_readonly (MakeDirs SUBTITLES_DIR)
     = Some (message (Exception (lit "Permission denied"))).
Proof.
  apply (process_url_raises demo_readonly demo_url (lit "en") empty_world
           (Exception (lit "Permission denied"))).
  vm_compute. reflexivity.
Defined.

(** ** The loop of [main] *)

Lemma process_event_batch E urls url language ev :
  In url urls -> process_event_ok E url language ev -> batch_event_ok E urls ev.
Proof.
  intros Hin. destruct ev; cbn; try tauto. intros [-> Hvalid]. auto.
Qed.

Lemma batch_event_weaken E url urls ev :
  batch_event_ok E urls ev -> batch_event_ok E (url :: urls) ev.
Proof. destruct ev; cbn; tauto. Qed.

(** X: whatever the environment answers, every network call made while a
    batch of URLs is processed is about a URL of the batch that the validator
    accepts, and every file written is a transcript that is not empty, at an
    output path. *)
Theorem process_urls_events E urls language w :
  exists evs,
    trace (snd (process_urls E urls language w)) = trace w ++ evs
    /\ Forall (batch_event_ok E urls) evs.
Proof.
  revert w. induction urls as [|url urls IH]; intros w.
  - exists []. cbn. rewrite app_nil_r. split; [reflexivity | constructor].
  - cbn [process_urls]. unfold bind.
    destruct (process_url_trace E url language w) as (evs1 & Htr1 & Hok1 & _).
    assert (Forall (batch_event_ok E (url :: urls)) evs1) as Hok1'.
    { eapply Forall_impl; [exact Hok1|]. intros ev.
      apply (process_event_batch E (url :: urls) url language). left; reflexivity. }
    destruct (process_url E url language w) as [[r|e] w1]; cbn [snd] in Htr1.
    + destruct (IH w1) as (evs2 & Htr2 & Hok2). exists (evs1 ++ evs2).
      rewrite Htr2, Htr1, <- app_assoc. split; [reflexivity|].
      apply Forall_app. split; [exact Hok1'|].
      eapply Forall_impl; [exact Hok2|]. intros ev. apply batch_event_weaken.
    + exists evs1. cbn [snd]. auto.
Qed.

(** X: a batch in which the validator accepts no URL only logs: it returns,
    the files are unchanged, and the trace has no network call and no write
    more than before. *)
Theorem process_urls_all_invalid E urls language w :
  Forall (fun url => is_valid_youtube_url E url = false) urls ->
  fst (process_urls E urls language w) = Val tt
  /\ files (snd (process_urls E urls language w)) = files w
  /\ network_calls (trace (snd (process_urls E urls language w)))
     = network_calls (trace w)
  /\ writes (trace (snd (process_urls E urls language w))) = writes (trace w).
Proof.
  intros Hall. revert w. induction Hall as [|url urls Hurl _ IH]; intros w.
  - cbn. auto.
  - cbn [process_urls]. unfold bind. rewrite (process_url_rejected _ _ _ _ Hurl).
    destruct (IH (World (files w)
                    ((trace w ++ [Log INFO (lit "Processing URL: " ++ url)])
                       ++ [Log ERROR (lit "Invalid YouTube URL: " ++ url)])))
      as (Hr & Hf & Hn & Hw).
    split; [exact Hr|]. split; [exact Hf|]. split.
    + rewrite Hn. cbn [trace]. rewrite !network_calls_app. cbn. rewrite !app_nil_r.
      reflexivity.
    + rewrite Hw. cbn [trace]. rewrite !writes_app. cbn. rewrite !app_nil_r.
      reflexivity.
Qed.

Lemma process_urls_all_invalid_witness :
  fst (process_urls demo [lit "not-a-url"; lit "https://example.com/watch?v=x"]
         (lit "en") empty_world) = Val tt
  /\ files (snd (process_urls demo [lit "not-a-url"; lit "https://example.com/watch?v=x"]
                   (lit "en") empty_world)) = files empty_world
  /\ network_calls (trace (snd (process_urls demo
                                  [lit "not-a-url"; lit "https://example.com/watch?v=x"]
                                  (lit "en") empty_world)))
     = network_calls (trace empty_world)
  /\ writes (trace (snd (process_urls demo
                           [lit "not-a-url"; lit "https://example.com/watch?v=x"]
                           (lit "en") empty_world)))
     = writes (trace empty_world).
Proof.
  apply (process_urls_all_invalid demo
           [lit "not-a-url"; lit "https://example.com/watch?v=x"] (lit "en") empty_world).
  repeat constructor.
Defined.

(** X: when the output directory exists or may be created, the write is not
    refused and no directory is in the way, [save_transcript] returns with
    the transcript in the file at its output path, replacing what was there,
    and with every other file as it was. *)
Theorem save_transcript_saves E transcript video_title w :
  is_Some (files w !! OUTPUT_DIR) \/ os_error E (MakeDirs OUTPUT_DIR) = None ->
  os_error E (WriteFile (output_path video_title) transcript) = None ->
  files w !! output_path video_title <> Some Dir ->
  exists w',
    save_transcript E transcript video_title w = (Val tt, w')
    /\ files w' !! output_path video_title = Some (File transcript)
    /\ (forall (k : str) (v : node),
          files w !! k = Some v -> k <> output_path video_title ->
          files w' !! k = Some v).
Proof.
  intros Hdir Hwrite Hfree.
  pose proof (save_transcript_written E transcript video_title w Hdir Hwrite Hfree)
    as Hsaved.
  destruct (save_transcript_trace E transcript video_title w) as (w' & evs & Hrun & _).
  exists w'. split; [exact Hrun|]. rewrite Hrun in Hsaved. split; [exact Hsaved|].
  intros k v Hk Hne.
  pose proof (save_transcript_files E transcript video_title w k v Hk Hne) as H.
  rewrite Hrun in H. exact H.
Qed.

Lemma save_transcript_saves_witness :
  exists w',
    save_transcript demo (lit "Hello") (lit "My-Video") demo_world = (Val tt, w')
    /\ files w' !! output_path (lit "My-Video") = Some (File (lit "Hello"))
    /\ (forall (k : str) (v : node),
          files demo_world !! k = Some v -> k <> output_path (lit "My-Video") ->
          files w' !! k = Some v).
Proof.
  apply (save_transcript_saves demo (lit "Hello") (lit "My-Video") demo_world).
  - right. reflexivity.
  - reflexivity.
  - vm_compute. discriminate.
Defined.

(** ** The callers: [cmd_driver.py] and [streamlit_app.py] *)

(** X: whenever [process_url] returns [None] (a rejected URL, no metadata, no
    captions, a failed download, a missing file, an empty transcript), the
    driver's [fetch_transcript] does not notice: it returns the path
    [data/transcripts/None.txt] and prints it. *)
Theorem cmd_driver_fetch_transcript_none E url w :
  fst (process_url E url (lit "en") w) = Val None ->
  cmd_driver.fetch_transcript E url w
  = (Val (lit "data/transcripts/None.txt"),
     snd (process_url E url (lit "en") w),
     [lit "Fetching transcript for: " ++ url;
      lit "transcript_path : data/transcripts/None.txt"]).
Proof.
  intros Hnone. unfold cmd_driver.fetch_transcript.
  destruct (process_url E url (lit "en") w) as [r w'].
  cbn [fst snd] in *. subst r. reflexivity.
Qed.

Lemma cmd_driver_fetch_transcript_none_witness :
  cmd_driver.fetch_transcript demo (lit "not-a-url") empty_world
  = (Val (lit "data/transcripts/None.txt"),
     snd (process_url demo (lit "not-a-url") (lit "en") empty_world),
     [lit "Fetching transcript for: " ++ lit "not-a-url";
      lit "transcript_path : data/transcripts/None.txt"]).
Proof.
  apply (cmd_driver_fetch_transcript_none demo (lit "not-a-url") empty_world).
  vm_compute. reflexivity.
Defined.

(** X: when the URL is valid, [fetch_transcript] returns a transcript that is
    not empty, and nothing stops [save_transcript], the path the driver's
    [fetch_transcript] returns is the path of the file the transcript was
    saved in. *)
Theorem cmd_driver_fetch_transcript_saved E url w transcript video_title w1 :
  is_valid_youtube_url E url = true ->
  fetch_transcript E url (lit "en")
    (World (files w) (trace w ++ [Log INFO (lit "Processing URL: " ++ url)]))
  = (Val (Some (transcript, video_title)), w1) ->
  transcript <> [] ->
  is_Some (files w1 !! OUTPUT_DIR) \/ os_error E (MakeDirs OUTPUT_DIR) = None ->
  os_error E (WriteFile (output_path video_title) transcript) = None ->
  files w1 !! output_path video_title <> Some Dir ->
  exists w' printed,
    cmd_driver.fetch_transcript E url w
    = (Val (lit "data/transcripts/" ++ video_title ++ lit ".txt"), w', printed)
    /\ files w' !! (lit "data/transcripts/" ++ video_title ++ lit ".txt")
       = Some (File transcript).
Proof.
  intros Hvalid Hfetch Hne Hdir Hwrite Hfree.
  pose proof (f_equal fst Hfetch) as Hsome. cbn [fst] in Hsome.
  apply fetch_transcript_some_inv in Hsome as (info & sel & _ & Htitle & _).
  assert (output_path video_title = lit "data/transcripts/" ++ video_title ++ lit ".txt")
    as Hpath.
  { subst video_title. rewrite output_path_of_title;
      [|apply video_title_of_chars | apply video_title_of_length].
    reflexivity. }
  pose proof (save_transcript_written E transcript video_title w1 Hdir Hwrite Hfree)
    as Hsaved.
  destruct (save_transcript_trace E transcript video_title w1) as (w2 & evs & Hrun & _).
  rewrite Hrun in Hsaved. cbn [snd] in Hsaved.
  unfold cmd_driver.fetch_transcript.
  rewrite (process_url_valid _ _ _ _ Hvalid), Hfetch.
  apply nonempty_true in Hne. rewrite Hne. unfold bind, ret. rewrite Hrun.
  cbn [format_optional]. eexists w2, _. rewrite <- Hpath. split; [|exact Hsaved].
  f_equal. f_equal. f_equal. rewrite Hpath. subst video_title.
  pose proof (video_title_of_chars info) as Hchars.
  destruct Hchars as [|x t Hx _]; [reflexivity|].
  unfold os_path_join. cbn [app]. rewrite (title_char_not_slash x Hx). reflexivity.
Qed.

Lemma cmd_driver_fetch_transcript_saved_witness :
  exists w' printed,
    cmd_driver.fetch_transcript demo demo_url empty_world
    = (Val (lit "data/transcripts/" ++ lit "My-Video" ++ lit ".txt"), w', printed)
    /\ files w' !! (lit "data/transcripts/" ++ lit "My-Video" ++ lit ".txt")
       = Some (File (lit "Hello" ++ newline :: lit "World")).
Proof.
  apply (cmd_driver_fetch_transcript_saved demo demo_url empty_world
           (lit "Hello" ++ newline :: lit "World") (lit "My-Video")
           (snd (fetch_transcript demo demo_url (lit "en")
                   (World (files empty_world)
                      (trace empty_world
                         ++ [Log INFO (lit "Processing URL: " ++ demo_url)])))));
    try (vm_compute; reflexivity); try (vm_compute; discriminate).
  right. reflexivity.
Defined.

(** X: the page asks the platform for the metadata of whatever URL is
    entered, without consulting the validator, and its request writes no
    file. *)
Theorem fetch_transcript_ui_unvalidated E url transcript_text w :
  let w' := snd (streamlit_app.fetch_transcript_ui E url transcript_text w) in
  (exists evs, trace w' = trace w ++ ExtractInfo initial_ydl_opts url false :: evs)
  /\ writes (trace w') = writes (trace w).
Proof.
  cbv zeta.
  assert (snd (streamlit_app.fetch_transcript_ui E url transcript_text w)
          = snd (fetch_transcript E url (lit "en") w)) as ->.
  { unfold streamlit_app.fetch_transcript_ui.
    destruct (fetch_transcript E url (lit "en") w) as [[[[t v]|]|e] w']; reflexivity. }
  destruct (fetch_transcript_trace E url (lit "en") w) as (evs & -> & Hok & _).
  split; [eauto|]. rewrite writes_app. cbn [writes List.filter]. fold (writes evs).
  rewrite (fetch_events_writes url (lit "en") evs Hok). apply app_nil_r.
Qed.

(** X: when the caption file parses but every cue is dropped, the page stores
    the empty transcript and reports success. *)
Theorem fetch_transcript_ui_empty E url transcript_text w info sel w1 fs content cues :
  ydl_metadata E initial_ydl_opts url = Val info ->
  subtitle_availability (default ∅ (subtitles info))
    (default ∅ (automatic_captions info)) (lit "en") = Some sel ->
  ensure_directory E SUBTITLES_DIR subtitles_dir_note (after_extract url w)
  = (Val tt, w1) ->
  ydl_download E (ydl_opts sel (lit "en") (video_title_of info)) url (files w1)
  = (Val tt, fs) ->
  fs !! subtitle_path (video_title_of info) (lit "en") = Some (File content) ->
  webvtt_parse E content = Val cues ->
  join [newline] (kept_cues cues) = [] ->
  fst (streamlit_app.fetch_transcript_ui E url transcript_text w)
  = (Some [],
     [streamlit_app.info (lit "Fetching transcript for: " ++ url);
      streamlit_app.success (lit "Transcript fetched successfully!")]).
Proof.
  intros Hinfo Hsel Hdir Hdl Hfile Hparse Hempty.
  destruct (fetch_transcript_parsed E url (lit "en") info sel w w1 fs
              Hinfo Hsel Hdir Hdl content cues Hfile Hparse) as (w' & Hrun & _).
  unfold streamlit_app.fetch_transcript_ui. rewrite Hrun, Hempty. reflexivity.
Qed.

Lemma fetch_transcript_ui_empty_witness :
  fst (streamlit_app.fetch_transcript_ui demo_blank demo_url None empty_world)
  = (Some [],
     [streamlit_app.info (lit "Fetching transcript for: " ++ demo_url);
      streamlit_app.success (lit "Transcript fetched successfully!")]).
Proof.
  apply (fetch_transcript_ui_empty demo_blank demo_url None empty_world
           demo_info demo_selection
           (snd (ensure_directory demo_blank SUBTITLES_DIR subtitles_dir_note
                   (after_extract demo_url empty_world)))
           (<[ demo_path := File (lit "WEBVTT") ]>
              (files (snd (ensure_directory demo_blank SUBTITLES_DIR subtitles_dir_note
                             (after_extract demo_url empty_world)))))
           (lit "WEBVTT")
           [cue (lit "<c> </c>"); cue (lit "dropped"); cue (lit "  ")]);
    vm_compute; reflexivity.
Defined.

(** ** [read_urls_from_file] *)

Lemma lstrip_app a b :
  lstrip (a ++ b) = match lstrip a with [] => lstrip b | _ => lstrip a ++ b end.
Proof.
  induction a as [|x a IH]; [reflexivity|]. simpl.
  destruct (isspace x); [exact IH | reflexivity].
Qed.

Lemma rstrip_snoc_space t x : isspace x = true -> rstrip (t ++ [x]) = rstrip t.
Proof.
  intros Hx. unfold rstrip. rewrite rev_app_distr. simpl. rewrite Hx. reflexivity.
Qed.

Lemma strip_snoc_space t x : isspace x = true -> strip (t ++ [x]) = strip t.
Proof.
  intros Hx. unfold strip. rewrite lstrip_app.
  destruct (lstrip t) as [|y u] eqn:Ht.
  - simpl. rewrite Hx. reflexivity.
  - apply rstrip_snoc_space, Hx.
Qed.

Lemma strip_Forall (P : char -> Prop) t : Forall P t -> Forall P (strip t).
Proof.
  intros H. destruct (strip_infix t) as (pre & post & Ht). rewrite Ht in H.
  apply Forall_app in H as [_ H]. apply Forall_app in H as [H _]. exact H.
Qed.

Lemma universal_newlines_no_cr_upto n t :
  (length t <= n)%nat -> Forall (fun x => x <> carriage_return) (universal_newlines t).
Proof.
  revert t. induction n as [|n IH]; intros [|x t] Hlen; try constructor;
    [simpl in Hlen; lia|]. simpl in Hlen. cbn [universal_newlines].
  destruct (N.eqb_spec x carriage_return) as [->|Hx].
  - constructor; [discriminate|]. destruct t as [|y t]; [constructor|].
    destruct (y =? newline); apply IH; simpl in *; lia.
  - constructor; [exact Hx|]. apply IH. lia.
Qed.

Lemma file_lines_concat t : concat (file_lines t) = t.
Proof.
  induction t as [|x t IH]; [reflexivity|]. cbn [file_lines].
  destruct (x =? newline); [cbn; rewrite IH; reflexivity|].
  destruct (file_lines t) as [|line lines]; cbn in *; rewrite <- IH, ?app_nil_r;
    reflexivity.
Qed.

Lemma file_lines_shape t :
  Forall (fun line => exists body, Forall (fun x => x <> newline) body
                                   /\ (line = body \/ line = body ++ [newline]))
    (file_lines t).
Proof.
  induction t as [|x t IH]; [constructor|]. cbn [file_lines].
  destruct (N.eqb_spec x newline) as [->|Hx].
  - constructor; [|exact IH]. exists []. split; [constructor | right; reflexivity].
  - destruct (file_lines t) as [|line lines].
    + constructor; [|constructor]. exists [x]. split; [repeat constructor; exact Hx | auto].
    + inversion IH as [|? ? (body & Hbody & Hline) Hrest]; subst.
      constructor; [|exact Hrest]. exists (x :: body).
      split; [constructor; assumption|]. destruct Hline as [->| ->]; auto.
Qed.

Lemma Forall_concat_inv {A} (P : A -> Prop) (ls : list (list A)) :
  Forall P (concat ls) -> Forall (Forall P) ls.
Proof.
  induction ls as [|l ls IH]; [constructor|]. cbn. intros H.
  apply Forall_app in H as [Hl Hls]. constructor; [exact Hl | apply IH, Hls].
Qed.

(** The loop that collects the URLs. *)
Lemma collect_urls lines acc :
  fold_left
    (fun urls line => let url := strip line in
                      if nonempty url then urls ++ [url] else urls)
    lines acc
  = acc ++ List.filter nonempty (List.map strip lines).
Proof.
  revert acc. induction lines as [|line lines IH]; intros acc; cbn [fold_left].
  - cbn. rewrite app_nil_r. reflexivity.
  - rewrite IH. cbn [List.map List.filter]. cbv zeta.
    destruct (nonempty (strip line)); [rewrite <- app_assoc|]; reflexivity.
Qed.

(** Every URL read from a file is a stripped line of it that is not empty and
    holds neither a newline nor a carriage return. *)
Lemma read_urls_from_file_clean file_path w :
  exists urls w',
    read_urls_from_file file_path w = (Val urls, w')
    /\ files w' = files w
    /\ ((forall content, files w !! file_path <> Some (File content)) -> urls = [])
    /\ Forall (fun url => url <> [] /\ strip url = url
                          /\ Forall (fun x => x <> newline /\ x <> carriage_return) url)
         urls.
Proof.
  unfold read_urls_from_file.
  destruct (files w !! file_path) as [[content|]|] eqn:Hfile.
  2,3: eexists [], _; unfold bind, log, emit, ret; cbn [files trace];
       repeat split; constructor.
  unfold bind, log, emit, ret. cbn [files trace]. eexists _, _.
  split; [reflexivity|]. split; [reflexivity|].
  split; [intros Hc; destruct (Hc content eq_refl)|].
  rewrite collect_urls. cbn [app].
  pose proof (universal_newlines_no_cr_upto _ content (le_n _)) as Hcr.
  rewrite <- (file_lines_concat (universal_newlines content)) in Hcr.
  apply Forall_concat_inv in Hcr.
  pose proof (file_lines_shape (universal_newlines content)) as Hshape.
  induction Hshape as [|line lines (body & Hbody & Hline) _ IH]; [constructor|].
  inversion Hcr as [|? ? Hcr1 Hcr2]; subst. specialize (IH Hcr2).
  cbn [List.map List.filter]. destruct (nonempty (strip line)) eqn:Hne; [|exact IH].
  constructor; [|exact IH]. split; [apply nonempty_true, Hne|].
  split; [apply strip_idem|].
  apply Forall_and. split.
  - destruct Hline as [->| ->]; [|rewrite strip_snoc_space by reflexivity];
      apply strip_Forall, Hbody.
  - apply strip_Forall, Hcr1.
Qed.

(** X: [read_urls_from_file] always returns a list and leaves the files as
    they were; the list is empty when the path holds no file; every URL in it
    is not empty, has no white space at either end, and holds neither a
    newline nor a carriage return. *)
Theorem read_urls_from_file_urls file_path w :
  exists urls,
    fst (read_urls_from_file file_path w) = Val urls
    /\ files (snd (read_urls_from_file file_path w)) = files w
    /\ ((forall content, files w !! file_path <> Some (File content)) -> urls = [])
    /\ Forall (fun url => url <> [] /\ lstrip url = url /\ rstrip url = url
                          /\ Forall (fun x => x <> newline /\ x <> carriage_return) url)
         urls.
Proof.
  destruct (read_urls_from_file_clean file_path w)
    as (urls & w' & -> & Hfiles & Hnone & Hclean).
  exists urls. cbn [fst snd]. split; [reflexivity|]. split; [exact Hfiles|].
  split; [exact Hnone|]. eapply Forall_impl; [exact Hclean|].
  intros url (Hne & Hstrip & Hchars). split; [exact Hne|].
  assert (lstrip url = url) as Hl.
  { rewrite <- Hstrip. unfold strip.
    destruct (lstrip url) as [|x u] eqn:Hu; [reflexivity|].
    pose proof (lstrip_head _ _ _ Hu) as Hx.
    rewrite (rstrip_cons x u Hx). apply lstrip_fixed, Hx. }
  split; [exact Hl|]. split; [|exact Hchars].
  unfold strip in Hstrip. rewrite Hl in Hstrip. exact Hstrip.
Qed.

(** X: on a URL read from a file the validator answers true exactly when the
    URL has the accepted shape: the final newline that the pattern tolerates
    cannot occur there. *)
Theorem read_urls_from_file_valid E file_path w urls url :
  fst (read_urls_from_file file_path w) = Val urls ->
  In url urls ->
  (is_valid_youtube_url E url = true <-> accepted_url_shape E url).
Proof.
  intros Hread Hin.
  destruct (read_urls_from_file_clean file_path w) as (urls' & w' & Hrun & _ & _ & Hclean).
  rewrite Hrun in Hread. cbn [fst] in Hread. injection Hread as ->.
  rewrite Forall_forall in Hclean. apply list_elem_of_In, Hclean in Hin.
  destruct Hin as (_ & _ & Hchars).
  rewrite is_valid_youtube_url_iff. split.
  - intros (body & tail & -> & [->| ->] & Hshape).
    + rewrite app_nil_r. exact Hshape.
    + apply Forall_app in Hchars as [_ Hnl]. inversion Hnl as [|? ? [Hx _] _].
      congruence.
  - intros Hshape. exists url, []. rewrite app_nil_r. auto.
Qed.

Lemma read_urls_from_file_valid_witness :
  is_valid_youtube_url demo demo_url = true <-> accepted_url_shape demo demo_url.
Proof.
  apply (read_urls_from_file_valid demo (lit "input_url.txt")
           (World {[ lit "input_url.txt"
                     := File (lit "  " ++ demo_url ++ [carriage_return; newline; newline]
                                ++ lit "not-a-url") ]} [])
           [demo_url; lit "not-a-url"] demo_url).
  - vm_compute. reflexivity.
  - left. reflexivity.
Defined.

(** ** The validator and the final newline *)

(** X: the validator answers true exactly on the strings of the accepted
    shape and on those strings followed by one newline. *)
Theorem is_valid_youtube_url_newline E url :
  is_valid_youtube_url E url = true
  <-> accepted_url_shape E url
      \/ exists body, url = body ++ [newline] /\ accepted_url_shape E body.
Proof.
  rewrite is_valid_youtube_url_iff. split.
  - intros (body & tail & -> & [->| ->] & Hshape).
    + left. rewrite app_nil_r. exact Hshape.
    + right. exists body. auto.
  - intros [Hshape|(body & -> & Hshape)].
    + exists url, []. rewrite app_nil_r. auto.
    + exists body, [newline]. auto.
Qed.

(** ** From the transcript to the blog post: the path and the prompt *)


Lemma startswith_app old rest : startswith old (old ++ rest) = true.
Proof. induction old as [|p old IH]; [reflexivity|]. cbn [app startswith]. rewrite N.eqb_refl. exact IH. Qed.

Lemma startswith_inv old t : startswith old t = true -> exists rest, t = old ++ rest.
Proof.
  revert t. induction old as [|p old IH]; intros t H.
  - exists t. reflexivity.
  - destruct t as [|x t]; [discriminate|]. cbn [startswith] in H.
    apply andb_true_iff in H as [Hx H]. apply N.eqb_eq in Hx as ->.
    destruct (IH _ H) as (rest & ->). exists rest. reflexivity.
Qed.

Lemma startswith_length old t : startswith old t = true -> (length old <= length t)%nat.
Proof.
  intros H. apply startswith_inv in H as (rest & ->). rewrite length_app. lia.
Qed.

Lemma startswith_tail old t y b :
  Forall (fun p => p <> y) old ->
  startswith old (t ++ y :: b) = startswith old t.
Proof.
  intros Hold. revert t. induction Hold as [|p old Hp _ IH]; intros t.
  - destruct t; reflexivity.
  - destruct t as [|x t]; cbn [app startswith].
    + apply andb_false_iff. left. apply N.eqb_neq. congruence.
    + rewrite IH. reflexivity.
Qed.

Lemma replace_scan_skip old new u b :
  replace_scan old new (length u) (u ++ b) = replace_scan old new 0 b.
Proof. induction u as [|x u IH]; [reflexivity | exact IH]. Qed.

Lemma replace_scan_occurrence old new b :
  old <> [] ->
  replace_scan old new 0 (old ++ b) = new ++ replace_scan old new 0 b.
Proof.
  destruct old as [|p old]; [congruence|]. intros _.
  change ((p :: old) ++ b) with (p :: (old ++ b)). cbn [replace_scan].
  change (p :: (old ++ b)) with ((p :: old) ++ b).
  rewrite startswith_app, replace_scan_skip. reflexivity.
Qed.

Lemma replace_scan_fresh p old new a b :
  Forall (fun x => x <> p) a ->
  replace_scan (p :: old) new 0 (a ++ b) = a ++ replace_scan (p :: old) new 0 b.
Proof.
  induction 1 as [|x a Hx _ IH]; [reflexivity|].
  cbn [app replace_scan startswith].
  apply N.eqb_neq in Hx. rewrite Hx. cbn [andb]. rewrite IH. reflexivity.
Qed.

Lemma replace_scan_chars (P : char -> Prop) old new t skip :
  Forall P t -> Forall P new -> Forall P (replace_scan old new skip t).
Proof.
  intros Ht Hnew. revert skip. induction Ht as [|x t Hx Ht IH]; intros skip.
  - cbn [replace_scan]. destruct old; [exact Hnew | constructor].
  - cbn [replace_scan]. destruct skip as [|skip]; [|apply IH].
    destruct (startswith old (x :: t)).
    + destruct old.
      * apply Forall_app. split; [exact Hnew|]. constructor; [exact Hx | apply IH].
      * apply Forall_app. split; [exact Hnew | apply IH].
    + constructor; [exact Hx | apply IH].
Qed.

Lemma replace_scan_tail old new y b t skip :
  old <> [] ->
  Forall (fun p => p <> y) old ->
  (skip <= length t)%nat ->
  replace_scan old new skip (t ++ y :: b)
  = replace_scan old new skip t ++ replace_scan old new 0 (y :: b).
Proof.
  intros Hne Hold. revert skip. induction t as [|x t IH]; intros skip Hskip.
  - cbn [length] in Hskip. assert (skip = 0%nat) as -> by lia.
    destruct old; [congruence | reflexivity].
  - destruct skip as [|skip].
    + change ((x :: t) ++ y :: b) with (x :: (t ++ y :: b)).
      cbn [replace_scan].
      change (x :: (t ++ y :: b)) with ((x :: t) ++ y :: b).
      rewrite (startswith_tail old (x :: t) y b Hold).
      destruct (startswith old (x :: t)) eqn:Hstart.
      * destruct old as [|p old']; [congruence|].
        apply startswith_length in Hstart. cbn [length] in Hstart.
        rewrite IH by lia. rewrite app_assoc. reflexivity.
      * rewrite IH by (cbn [length]; lia). reflexivity.
    + cbn [app replace_scan]. apply IH. cbn [length] in Hskip. lia.
Qed.

Lemma replace_scan_absent old new t :
  old <> [] ->
  (forall a b, t <> a ++ old ++ b) ->
  replace_scan old new 0 t = t.
Proof.
  intros Hne. induction t as [|x t IH]; intros Habsent.
  - destruct old; [congruence | reflexivity].
  - cbn [replace_scan]. destruct (startswith old (x :: t)) eqn:Hstart.
    + apply startswith_inv in Hstart as (rest & Hrest).
      destruct (Habsent [] rest). exact Hrest.
    + rewrite IH; [reflexivity|]. intros a b ->. apply (Habsent (x :: a) b). reflexivity.
Qed.

Lemma title_char_not_dot x : title_char x = true -> x <> chr ".".
Proof. intros H ->. char_facts. Qed.

Lemma blog_output_path_form title :
  Forall (fun x => title_char x = true) title ->
  blog_output_path (lit "data/transcripts/" ++ title ++ lit ".txt")
  = lit "data/blogs/" ++ str_replace (lit "transcripts") (lit "blogs") title ++ lit ".md".
Proof.
  intros Hchars. unfold blog_output_path, str_replace.
  assert (forall rest,
             replace_scan (lit "transcripts") (lit "blogs") 0 (lit "data/transcripts/" ++ rest)
             = lit "data/blogs/" ++ replace_scan (lit "transcripts") (lit "blogs") 0 rest)
    as -> by (intros rest; reflexivity).
  change (lit ".txt") with (chr "." :: lit "txt") at 2.
  rewrite replace_scan_tail; [| discriminate | | lia].
  2:{ vm_compute. repeat constructor; discriminate. }
  change (replace_scan (lit "transcripts") (lit "blogs") 0 (chr "." :: lit "txt"))
    with (lit ".txt").
  rewrite app_assoc.
  change (lit ".txt") with (chr "." :: lit "txt") at 1.
  rewrite (replace_scan_fresh (chr ".") (lit "txt") (lit ".md")).
  - rewrite <- app_assoc. reflexivity.
  - apply Forall_app. split.
    + vm_compute. repeat constructor; discriminate.
    + apply replace_scan_chars.
      * eapply Forall_impl; [exact Hchars|]. intros x. apply title_char_not_dot.
      * vm_compute. repeat constructor; discriminate.
Qed.

Lemma replace_scan_length old new t skip :
  old <> [] ->
  (length new <= length old)%nat ->
  (length (replace_scan old new skip t) <= length t - skip)%nat.
Proof.
  intros Hne Hlen. revert skip. induction t as [|x t IH]; intros skip.
  - destruct old; [congruence|]. cbn [replace_scan length]. lia.
  - cbn [replace_scan]. destruct skip as [|skip]; [|apply IH].
    destruct (startswith old (x :: t)) eqn:Hstart.
    + destruct old as [|p old']; [congruence|].
      apply startswith_length in Hstart. cbn [length] in Hstart, Hlen.
      rewrite length_app. specialize (IH (length old')). cbn [length]. lia.
    + specialize (IH 0%nat). cbn [length]. lia.
Qed.

Lemma replace_scan_shorter old new a b :
  (length new < length old)%nat ->
  (length (replace_scan old new 0 (a ++ old ++ b)) < length (a ++ old ++ b))%nat.
Proof.
  intros Hlen. assert (old <> []) as Hne by (intros ->; cbn [length] in Hlen; lia).
  induction a as [|x a IH].
  - cbn [app]. rewrite replace_scan_occurrence by exact Hne.
    pose proof (replace_scan_length old new b 0 Hne ltac:(lia)).
    rewrite !length_app. lia.
  - change ((x :: a) ++ old ++ b) with (x :: (a ++ old ++ b)).
    cbn [replace_scan]. destruct (startswith old (x :: a ++ old ++ b)) eqn:Hstart.
    + destruct old as [|p old']; [congruence|].
      apply startswith_length in Hstart. cbn [length] in Hstart, Hlen.
      pose proof (replace_scan_length (p :: old') new (a ++ (p :: old') ++ b)
                    (length old') Hne ltac:(cbn [length]; lia)).
      rewrite length_app. cbn [length]. lia.
    + cbn [length]. lia.
Qed.

Lemma process_url_title E url language w video_title :
  fst (process_url E url language w) = Val (Some video_title) ->
  Forall (fun x => title_char x = true) video_title.
Proof.
  destruct (is_valid_youtube_url E url) eqn:Hvalid.
  2:{ rewrite (process_url_rejected _ _ _ _ Hvalid). discriminate. }
  rewrite (process_url_valid _ _ _ _ Hvalid).
  destruct (fetch_transcript E url language _) as [[[[transcript title]|]|e] w1] eqn:Hfetch;
    cbn [fst]; try discriminate.
  pose proof (f_equal fst Hfetch) as Hsome. cbn [fst] in Hsome.
  apply fetch_transcript_some_inv in Hsome as (info & sel & _ & -> & _).
  destruct (nonempty transcript); [|discriminate].
  destruct (save_transcript_trace E transcript (video_title_of info) w1)
    as (w2 & evs & Hsave & _).
  unfold bind, ret. rewrite Hsave. cbn [fst]. intros [= <-].
  apply video_title_of_chars.
Qed.

(** X: whatever path the driver's [fetch_transcript] returns, it is
    [data/transcripts/<name>.txt] and [generate_blog] computes from it the
    output path [data/blogs/<name'>.md], where [name'] is [name] with every
    occurrence of [transcripts] replaced by [blogs]: the two replacements
    touch the directory and the extension, and the name only through the
    first one. *)
Theorem generate_blog_output_path E url w transcript_path :
  fst (fst (cmd_driver.fetch_transcript E url w)) = Val transcript_path ->
  exists name,
    transcript_path = lit "data/transcripts/" ++ name ++ lit ".txt"
    /\ blog_output_path transcript_path
       = lit "data/blogs/" ++ str_replace (lit "transcripts") (lit "blogs") name
           ++ lit ".md".
Proof.
  unfold cmd_driver.fetch_transcript.
  destruct (process_url E url (lit "en") w) as [[video_title|e] w'] eqn:Hrun;
    cbn [fst]; [|discriminate].
  intros [= <-].
  assert (Forall (fun x => title_char x = true) (format_optional video_title)) as Hchars.
  { destruct video_title as [t|].
    - apply (process_url_title E url (lit "en") w). rewrite Hrun. reflexivity.
    - vm_compute. repeat constructor. }
  exists (format_optional video_title).
  assert (os_path_join (lit "data/transcripts") (format_optional video_title ++ lit ".txt")
          = lit "data/transcripts/" ++ format_optional video_title ++ lit ".txt") as ->.
  { destruct Hchars as [|x t Hx _]; [reflexivity|].
    unfold os_path_join. cbn [app]. rewrite (title_char_not_slash x Hx). reflexivity. }
  split; [reflexivity|]. apply blog_output_path_form, Hchars.
Qed.

Lemma generate_blog_output_path_witness :
  exists name,
    lit "data/transcripts/My-Video.txt" = lit "data/transcripts/" ++ name ++ lit ".txt"
    /\ blog_output_path (lit "data/transcripts/My-Video.txt")
       = lit "data/blogs/" ++ str_replace (lit "transcripts") (lit "blogs") name
           ++ lit ".md".
Proof.
  apply (generate_blog_output_path demo demo_url empty_world
           (lit "data/transcripts/My-Video.txt")).
  vm_compute. reflexivity.
Defined.

(** X: for a title as [fetch_transcript] makes them, the blog post gets the
    file name of the transcript (in [data/blogs], with the extension [.md])
    exactly when the title does not contain [transcripts]. *)
Theorem blog_output_path_keeps_title title :
  Forall (fun x => title_char x = true) title ->
  blog_output_path (lit "data/transcripts/" ++ title ++ lit ".txt")
  = lit "data/blogs/" ++ title ++ lit ".md"
  <-> forall a b, title <> a ++ lit "transcripts" ++ b.
Proof.
  intros Hchars. rewrite (blog_output_path_form title Hchars). split.
  - intros Heq a b ->. apply app_inv_head, app_inv_tail in Heq.
    pose proof (replace_scan_shorter (lit "transcripts") (lit "blogs") a b
                  ltac:(cbn; lia)) as Hlt.
    unfold str_replace in Heq. rewrite Heq in Hlt. lia.
  - intros Habsent. unfold str_replace.
    rewrite replace_scan_absent; [reflexivity | discriminate | exact Habsent].
Qed.

Lemma blog_output_path_keeps_title_witness :
  blog_output_path (lit "data/transcripts/" ++ lit "My-Video" ++ lit ".txt")
  = lit "data/blogs/" ++ lit "My-Video" ++ lit ".md"
  <-> forall a b, lit "My-Video" <> a ++ lit "transcripts" ++ b.
Proof.
  apply (blog_output_path_keeps_title (lit "My-Video")).
  vm_compute. repeat constructor.
Defined.

(** X: in the prompt the first placeholder, when no brace stands before it,
    is replaced by the transcript as it is, and the replacement goes on after
    the placeholder: braces and placeholders inside the transcript are not
    looked at. *)
Theorem blog_prompt_substitutes a b transcript :
  Forall (fun x => x <> chr "{") a ->
  blog_prompt (a ++ lit "{{transcript}}" ++ b) transcript
  = a ++ transcript ++ blog_prompt b transcript.
Proof.
  intros Ha. unfold blog_prompt, str_replace.
  change (lit "{{transcript}}") with (chr "{" :: lit "{transcript}}") at 1 3.
  rewrite (replace_scan_fresh (chr "{") (lit "{transcript}}") transcript a _ Ha).
  change (chr "{" :: lit "{transcript}}") with (lit "{{transcript}}").
  rewrite replace_scan_occurrence by discriminate. reflexivity.
Qed.

Lemma blog_prompt_substitutes_witness :
  blog_prompt (lit "Write about: " ++ lit "{{transcript}}" ++ lit "!") (lit "{Hello}")
  = lit "Write about: " ++ lit "{Hello}" ++ blog_prompt (lit "!") (lit "{Hello}").
Proof.
  apply (blog_prompt_substitutes (lit "Write about: ") (lit "!") (lit "{Hello}")).
  vm_compute. repeat constructor; discriminate.
Defined.

(** X: a system prompt without the placeholder is sent unchanged: the
    transcript is not part of the prompt. *)
Theorem blog_prompt_without_placeholder system_prompt transcript :
  (forall a b, system_prompt <> a ++ lit "{{transcript}}" ++ b) ->
  blog_prompt system_prompt transcript = system_prompt.
Proof.
  intros Habsent. apply replace_scan_absent; [discriminate | exact Habsent].
Qed.

Lemma blog_prompt_without_placeholder_witness :
  blog_prompt (lit "Summarise.") (lit "Hello") = lit "Summarise.".
Proof.
  apply (blog_prompt_without_placeholder (lit "Summarise.") (lit "Hello")).
  intros a b H. apply (f_equal length) in H. rewrite !length_app in H.
  change (length (lit "Summarise.")) with 10%nat in H.
  change (length (lit "{{transcript}}")) with 14%nat in H. lia.
Defined.
